(** * Slack User Exporter: a shallow embedding of [main.js]

    The script lists the members of a Slack channel, fetches and parses
    each member, merges the result with the rows already stored in a
    spreadsheet and writes the merged list back.  This file embeds the
    functions of [main.js] as Rocq functions and proves the properties the
    specification states about them.

    Conventions of the embedding.
    - A JavaScript primitive value is a [Prim]; numbers are restricted to
      integer values.
    - A function that may [throw] returns a [Result]; the thrown value is a
      [JsError], one constructor per [throw] site of the source, plus the
      [TypeError] the runtime raises on a property access on [undefined].
    - The Slack transport and the spreadsheet service are outside the
      script: the transport is a parameter of the development, the
      spreadsheet is a finite map from sheet names to grids of cells.
    - [main] and the two constructors raise a [MainError]: an error of the
      set-up ([SetupError]) or a [JsError] of the run.
    - What the script prints on the console is left out, and with it
      [toJSON]; so is [listUsersInTeam], which nothing in the script
      calls. *)

From Stdlib Require Import ZArith Ascii String List Lia.
From stdpp Require Import base decidable option list strings pretty gmap.

Open Scope Z_scope.

(** ** JavaScript values *)

Inductive Prim : Type :=
  | PUndefined
  | PNull
  | PBool (b : bool)
  | PNum (n : Z)
  | PStr (s : string).

#[global] Instance Prim_eq_dec : EqDecision Prim.
Proof. solve_decision. Defined.

(** [ToBoolean]: [undefined], [null], [false], [0] and [""] are falsy. *)
Definition truthy (v : Prim) : bool :=
  match v with
  | PUndefined | PNull => false
  | PBool b => b
  | PNum n => negb (n =? 0)
  | PStr s => negb (String.eqb s "")
  end.

(** Errors raised by the script, one constructor per [throw] site. *)
Inductive JsError : Type :=
  | ChannelIdInvalid            (* "channelId must be a string which is NOT empty" *)
  | UserIdInvalid               (* "userId must be a string which is NOT empty" *)
  | SlackApiError (error : Prim)  (* `Slack API Error: ${result.error}` *)
  | TransportError (msg : string) (* raised by UrlFetchApp.fetch or JSON.parse *)
  | DataNot2D                   (* "Data must be a 2D array" *)
  | RowLengthMismatch           (* "All rows must have the same length" *)
  | InvalidUserObject           (* "Invalid user object provided" *)
  | DisplayNameNotFound         (* `displayName is not found: ...` *)
  | InvalidDisplayNameFormat (displayName : string)
                                (* `Invalid display name format: ${displayName}` *)
  | ServiceError (msg : string) (* raised by the spreadsheet service *)
  | TypeError (what : string).  (* raised by the runtime, not by a [throw] *)

Inductive Result (A : Type) : Type :=
  | Ok (a : A)
  | Err (e : JsError).
Arguments Ok {A} a.
Arguments Err {A} e.

(** ** Users *)

(** [{ id, name }], the two parts of a display name. *)
Record Name : Type := mkName { id : Prim; name : Prim }.

(** [class User]: [userId] and [name]; [user_name = None] stands for a
    [name] that is [undefined] or [null] (the source reads it with [?.]). *)
Record User : Type := mkUser { userId : Prim; user_name : option Name }.

#[global] Instance Name_eq_dec : EqDecision Name.
Proof. solve_decision. Defined.
#[global] Instance User_eq_dec : EqDecision User.
Proof. solve_decision. Defined.

(** The user object of Slack's [users.info]: only the fields the script
    reads.  [profile = None] stands for a falsy [profile]. *)
Record Profile : Type := mkProfile { display_name : Prim }.
Record SlackUser : Type := mkSlackUser { slack_id : Prim; profile : option Profile }.

(** ** [String.prototype.split] with a one-character separator *)

(** [split sep s]: the pieces of [s] between the occurrences of [sep].  The
    result is never empty: [split sep ""] is [[""]]. *)
Fixpoint split (sep : ascii) (s : string) : list string :=
  match s with
  | EmptyString => [EmptyString]
  | String c s' =>
      if Ascii.eqb c sep then EmptyString :: split sep s'
      else match split sep s' with
           | t :: ts => String c t :: ts
           | [] => [String c EmptyString]
           end
  end.

(** [a[i]] on an array of strings: [undefined] out of range. *)
Definition elemAt (a : list string) (i : nat) : Prim :=
  match a !! i with
  | Some s => PStr s
  | None => PUndefined
  end.

(** ** [User.parseFromSlackUser] *)

(** [user = None] stands for a falsy argument. *)
Definition parseFromSlackUser (user : option SlackUser) : Result User :=
  match user with
  | None => Err InvalidUserObject
  | Some u =>
      match profile u with
      | None => Err InvalidUserObject
      | Some p =>
          let displayName := display_name p in
          if negb (truthy displayName) then Err DisplayNameNotFound
          else
            match displayName with
            | PStr s =>
                let parts := split " " s in
                let id := elemAt parts 0 in
                let name := elemAt parts 1 in
                let others := drop 2 parts in
                if negb (truthy id) || negb (truthy name)
                   || (0 <? Z.of_nat (length others))
                then Err (InvalidDisplayNameFormat s)
                else Ok (mkUser (slack_id u) (Some (mkName id name)))
            | _ => Err (TypeError "displayName.split is not a function")
            end
      end
  end.

(** The parser applied to a user whose display name is the string [raw]. *)
Definition parseDisplayName (uid : Prim) (raw : string) : Result User :=
  parseFromSlackUser (Some (mkSlackUser uid (Some (mkProfile (PStr raw))))).

(** *** What "splitting" means, stated without the code *)

Fixpoint has_char (c : ascii) (s : string) : bool :=
  match s with
  | EmptyString => false
  | String c' s' => Ascii.eqb c' c || has_char c s'
  end.

(** [join sep toks]: the tokens written one after the other, with [sep]
    between two neighbours. *)
Fixpoint join (sep : ascii) (toks : list string) : string :=
  match toks with
  | [] => EmptyString
  | [t] => t
  | t :: ts => t +:+ String sep (join sep ts)
  end.

(** [raw] consists of the tokens [toks], separated by single spaces. *)
Definition SplitsInto (raw : string) (toks : list string) : Prop :=
  raw = join " " toks ∧ Forall (λ t, has_char " " t = false) toks.

(** The errors the parser raises on a malformed display name. *)
Definition isFormatError (e : JsError) : bool :=
  match e with
  | DisplayNameNotFound | InvalidDisplayNameFormat _ => true
  | _ => false
  end.

(** ** [class SlackApi] *)

(** The JSON body of a Slack response: only the fields the script reads.
    [response_metadata = None] stands for a missing [response_metadata]. *)
Record ResponseMetadata : Type := mkMetadata { next_cursor : Prim }.
Record SlackResponse : Type := mkResponse {
  ok : bool;
  error : Prim;
  members : list Prim;
  response_metadata : option ResponseMetadata;
  user : option SlackUser
}.

(** [response.response_metadata?.next_cursor] *)
Definition nextCursorOf (response : SlackResponse) : Prim :=
  match response_metadata response with
  | Some m => next_cursor m
  | None => PUndefined
  end.

(** What [request] hands to the transport. *)
Record Request : Type := mkRequest {
  endpoint : string;
  method : string;
  params : list (string * Prim)
}.

Section SlackApi.

(** The state of the world outside the script (the Slack workspace, the
    network) and the transport: [UrlFetchApp.fetch] followed by
    [JSON.parse], which answers a request or raises. *)
Context {World : Type}.
Variable fetch : World → Request → Result SlackResponse * World.

(** [request(endpoint, method, params)] *)
Definition request (w : World) (endpoint method : string)
    (params : list (string * Prim)) : Result SlackResponse * World :=
  match fetch w (mkRequest endpoint method params) with
  | (Err e, w') => (Err e, w')
  | (Ok result, w') =>
      if negb (ok result) then (Err (SlackApiError (error result)), w')
      else (Ok result, w')
  end.

(** The parameters of one [conversations.members] call:
    [{ channel, limit: 200, ...(nextCursor && { cursor: nextCursor }) }] *)
Definition membersParams (channelId nextCursor : Prim) : list (string * Prim) :=
  [("channel", channelId); ("limit", PNum 200)]
  ++ (if truthy nextCursor then [("cursor", nextCursor)] else []).

(** The [do ... while (nextCursor)] loop of [listUsersInChannel].  The
    loop runs as long as the source returns a cursor, so the model takes
    fuel: [None] means the fuel ran out before the loop ended. *)
Fixpoint listUsersInChannel_loop (fuel : nat) (w : World) (channelId : Prim)
    (members0 : list Prim) (nextCursor : Prim)
    : option (Result (list Prim) * World) :=
  match fuel with
  | O => None
  | S fuel' =>
      match request w "conversations.members" "GET"
              (membersParams channelId nextCursor) with
      | (Err e, w') => Some (Err e, w')
      | (Ok response, w') =>
          let members1 := members0 ++ members response in
          let nextCursor' := nextCursorOf response in
          if truthy nextCursor'
          then listUsersInChannel_loop fuel' w' channelId members1 nextCursor'
          else Some (Ok members1, w')
      end
  end.

(** [typeof v !== "string" || v.length === 0] *)
Definition notNonEmptyString (v : Prim) : bool :=
  match v with
  | PStr s => String.eqb s ""
  | _ => true
  end.

(** [listUsersInChannel(channelId)] *)
Definition listUsersInChannel (fuel : nat) (w : World) (channelId : Prim)
    : option (Result (list Prim) * World) :=
  if notNonEmptyString channelId then Some (Err ChannelIdInvalid, w)
  else listUsersInChannel_loop fuel w channelId [] PUndefined.

(** [userInfo(userId)] *)
Definition userInfo (w : World) (userId : Prim)
    : Result (option SlackUser) * World :=
  if notNonEmptyString userId then (Err UserIdInvalid, w)
  else
    match request w "users.info" "GET" [("user", userId)] with
    | (Err e, w') => (Err e, w')
    | (Ok response, w') => (Ok (user response), w')
    end.

(** The body of the [try] block of [fetchAndParseUsers]:
    [userInfo] followed by [User.parseFromSlackUser]. *)
Definition tryUser (w : World) (userId : Prim) : Result User * World :=
  match userInfo w userId with
  | (Err e, w') => (Err e, w')
  | (Ok info, w') => (parseFromSlackUser info, w')
  end.

(** The [for (const userId of userIds)] loop of [fetchAndParseUsers],
    with its two arrays [users] and [errors]; an entry of [errors] is
    [{ userId, error }]. *)
Fixpoint fetchAndParseLoop (w : World) (userIds : list Prim)
    (users : list User) (errors : list (Prim * JsError))
    : list User * list (Prim * JsError) * World :=
  match userIds with
  | [] => (users, errors, w)
  | userId :: rest =>
      match tryUser w userId with
      | (Ok parsedUser, w') =>
          fetchAndParseLoop w' rest (users ++ [parsedUser]) errors
      | (Err e, w') =>
          fetchAndParseLoop w' rest users (errors ++ [(userId, e)])
      end
  end.

(** [fetchAndParseUsers(slackApi, channelId)] *)
Definition fetchAndParseUsers (fuel : nat) (w : World) (channelId : Prim)
    : option (Result (list User) * World) :=
  match listUsersInChannel fuel w channelId with
  | None => None
  | Some (Err e, w') => Some (Err e, w')
  | Some (Ok userIds, w') =>
      let '(users, _, w'') := fetchAndParseLoop w' userIds [] [] in
      Some (Ok users, w'')
  end.

(** *** The same two functions, described without loops and accumulators *)

(** [PageChain w channelId cursor pages w']: starting in [w] with
    [cursor], the source answers the successive requests with [pages];
    every page but the last carries a cursor, which is the cursor of the
    next request, and the last page carries none. *)
Inductive PageChain (channelId : Prim)
    : World → Prim → list SlackResponse → World → Prop :=
  | PageChain_last w cursor response w' :
      request w "conversations.members" "GET"
        (membersParams channelId cursor) = (Ok response, w') →
      truthy (nextCursorOf response) = false →
      PageChain channelId w cursor [response] w'
  | PageChain_next w cursor response w1 pages w' :
      request w "conversations.members" "GET"
        (membersParams channelId cursor) = (Ok response, w1) →
      truthy (nextCursorOf response) = true →
      PageChain channelId w1 (nextCursorOf response) pages w' →
      PageChain channelId w cursor (response :: pages) w'.

(** The outcome of every identifier, in order, the world threaded
    through the calls. *)
Fixpoint outcomes (w : World) (userIds : list Prim)
    : list (Prim * Result User) * World :=
  match userIds with
  | [] => ([], w)
  | userId :: rest =>
      let '(r, w') := tryUser w userId in
      let '(rs, w'') := outcomes w' rest in
      ((userId, r) :: rs, w'')
  end.

Definition succeeded (o : Prim * Result User) : option User :=
  match o.2 with Ok u => Some u | Err _ => None end.

Definition failed (o : Prim * Result User) : option (Prim * JsError) :=
  match o.2 with Ok _ => None | Err e => Some (o.1, e) end.

End SlackApi.

(** ** The spreadsheet service *)

(** A sheet is the grid of its cells, row by row; a spreadsheet maps the
    names of its sheets to their grids. *)
Definition Sheet : Type := list (list Prim).

(** [l] extended to length [n] with [d]. *)
Definition padTo {A} (n : nat) (d : A) (l : list A) : list A :=
  l ++ replicate (n - length l) d.

(** Modelled from the spec: the tabular store's "full-contents clear"
    ([Sheet.clear] of the spreadsheet service). *)
Definition sheet_clear (sheet : Sheet) : Sheet := [].

(** Modelled from the spec: the tabular store's "append a single row"
    ([Sheet.appendRow]): the row goes below the last row of the sheet. *)
Definition sheet_appendRow (row : list Prim) (sheet : Sheet) : Sheet :=
  sheet ++ [row].

(** The cells of one row from [column] on replaced by [vals]; an untouched
    cell to the left that did not exist is empty. *)
Definition setRowCells (column : nat) (vals row : list Prim) : list Prim :=
  take (column - 1) (padTo (column - 1) (PStr "") row)
  ++ vals ++ drop (column - 1 + length vals) row.

Fixpoint setRows (column : nat) (values : list (list Prim)) (rows : Sheet) : Sheet :=
  match values with
  | [] => rows
  | vals :: values' =>
      match rows with
      | [] => setRowCells column vals [] :: setRows column values' []
      | r :: rows' => setRowCells column vals r :: setRows column values' rows'
      end
  end.

(** [sheet.getRange(row, column, numRows, numColumns)], rows and columns
    counted from 1. *)
Record Range : Type := mkRange {
  range_row : nat;
  range_column : nat;
  numRows : nat;
  numColumns : nat
}.

(** Modelled from the spec: the tabular store's "bulk-set a rectangular
    block of rows starting at a given row/column offset"
    ([range.setValues(values)]).  The service raises when [values] does not
    have the dimensions of the range. *)
Definition range_setValues (range : Range) (values : list (list Prim))
    (sheet : Sheet) : Result Sheet :=
  if Nat.eqb (length values) (numRows range)
     && forallb (λ vals, Nat.eqb (length vals) (numColumns range)) values
  then
    Ok (take (range_row range - 1) (padTo (range_row range - 1) [] sheet)
        ++ setRows (range_column range) values (drop (range_row range - 1) sheet))
  else Err (ServiceError "The data does not match the dimensions of the range").

(** The number of columns of the data range: at least one. *)
Definition sheet_width (sheet : Sheet) : nat :=
  Nat.max 1 (foldr Nat.max 0%nat (length <$> sheet)).

(** Modelled from the spec: the tabular store's "full-contents read"
    ([sheet.getDataRange().getValues()]): the rows of the sheet, each
    extended with empty cells to the width of the data range; the single
    empty cell [[[""]]] when the sheet is empty. *)
Definition sheet_getValues (sheet : Sheet) : list (list Prim) :=
  match sheet with
  | [] => [[PStr ""]]
  | _ => padTo (sheet_width sheet) (PStr "") <$> sheet
  end.

(** ** [class SpreadSheetApi] *)

(** The argument of [validateData] and [writeMapToSheet]: any value, seen
    down to the second level.  An element of an array is a row (an array of
    cells) or a value that is not an array. *)
Inductive JsElem : Type :=
  | ENotArray (v : Prim)
  | EArray (cells : list Prim).

Inductive JsData : Type :=
  | DNotArray (v : Prim)
  | DArray (elems : list JsElem).

(** [Array.isArray(row)] *)
Definition isArray (e : JsElem) : bool :=
  match e with
  | EArray _ => true
  | ENotArray _ => false
  end.

(** The cells of the elements that are arrays. *)
Definition rowsOf (elems : list JsElem) : list (list Prim) :=
  omap (λ e, match e with EArray cells => Some cells | ENotArray _ => None end) elems.

(** [validateData(data)].  After the first test every element is an array;
    [data[0].length] on the empty array reads a property of [undefined]. *)
Definition validateData (data : JsData) : Result unit :=
  match data with
  | DNotArray _ => Err DataNot2D
  | DArray elems =>
      if negb (forallb isArray elems) then Err DataNot2D
      else
        match rowsOf elems with
        | [] => Err (TypeError "Cannot read properties of undefined (reading 'length')")
        | row0 :: _ =>
            let rowLength := length row0 in
            if negb (forallb (λ row, Nat.eqb (length row) rowLength) (rowsOf elems))
            then Err RowLengthMismatch
            else Ok tt
        end
  end.

(** The state of [this.spreadsheet]. *)
Abbreviation Spreadsheet := (gmap string Sheet).

(** [getOrCreateSheet(sheetName)]: the spreadsheet afterwards; the sheet
    itself is then found under [sheetName]. *)
Definition getOrCreateSheet (ss : Spreadsheet) (sheetName : string) : Spreadsheet :=
  match ss !! sheetName with
  | Some _ => ss
  | None => <[sheetName := []]> ss
  end.

(** The sheet found under [sheetName] by [getOrCreateSheet]. *)
Definition sheetOf (ss : Spreadsheet) (sheetName : string) : Sheet :=
  default [] (ss !! sheetName).

(** [writeMapToSheet(data, sheetName)] *)
Definition writeMapToSheet (ss : Spreadsheet) (data : JsData) (sheetName : string)
    : Result unit * Spreadsheet :=
  match validateData data with
  | Err e => (Err e, ss)
  | Ok _ =>
      let rows := match data with DArray elems => rowsOf elems | DNotArray _ => [] end in
      let ss1 := getOrCreateSheet ss sheetName in
      let sheet1 := sheet_clear (sheetOf ss1 sheetName) in
      if Nat.eqb (length rows) 0 then (Ok tt, <[sheetName := sheet1]> ss1)
      else
        let row0 := default [] (head rows) in
        let sheet2 := sheet_appendRow row0 sheet1 in
        if Nat.ltb 1 (length rows)
        then
          match range_setValues (mkRange 2 1 (length rows - 1) (length row0))
                  (drop 1 rows) sheet2 with
          | Ok sheet3 => (Ok tt, <[sheetName := sheet3]> ss1)
          | Err e => (Err e, <[sheetName := sheet2]> ss1)
          end
        else (Ok tt, <[sheetName := sheet2]> ss1)
  end.

(** [!user.userId || !user.name?.id || !user.name?.name] *)
Definition invalidUser (user : User) : bool :=
  negb (truthy (userId user))
  || negb (truthy (from_option id PUndefined (user_name user)))
  || negb (truthy (from_option name PUndefined (user_name user))).

Definition headerRow : list Prim := [PStr "userId"; PStr "id"; PStr "name"].

(** [user.name.id] and [user.name.name] of a user that passed the test. *)
Definition userRow (user : User) : list Prim :=
  [userId user;
   from_option id PUndefined (user_name user);
   from_option name PUndefined (user_name user)].

(** The array [rows] of [writeUsersToSheet] after its loop. *)
Definition userRows (users : list User) : list (list Prim) :=
  foldl (λ rows user, if invalidUser user then rows else rows ++ [userRow user])
        [headerRow] users.

(** [writeUsersToSheet(users)]; [users] is an array by its type. *)
Definition writeUsersToSheet (ss : Spreadsheet) (users : list User)
    : Result unit * Spreadsheet :=
  writeMapToSheet ss (DArray (EArray <$> userRows users)) "users".

(** [row[i]]: [undefined] out of range. *)
Definition cellAt (row : list Prim) (i : nat) : Prim :=
  default PUndefined (row !! i).

(** [readUsersFromSheet()] *)
Definition readUsersFromSheet (ss : Spreadsheet) : list User * Spreadsheet :=
  let ss1 := getOrCreateSheet ss "users" in
  let rows := sheet_getValues (sheetOf ss1 "users") in
  if Nat.leb (length rows) 1 then ([], ss1)
  else
    ((λ row, mkUser (cellAt row 0) (Some (mkName (cellAt row 1) (cellAt row 2))))
       <$> drop 1 rows, ss1).

(** ** [mergeAndUpdateUsers] *)

(** A JavaScript [Map] keyed by primitive values: the entries in
    insertion order.  [Map_set] replaces the value of a key that is
    present, in place, and appends an entry otherwise. *)
Fixpoint Map_set {V} (key : Prim) (value : V) (m : list (Prim * V)) : list (Prim * V) :=
  match m with
  | [] => [(key, value)]
  | (k, v) :: m' =>
      if decide (k = key) then (k, value) :: m'
      else (k, v) :: Map_set key value m'
  end.

(** [Array.from(m.values())] *)
Definition Map_values {V} (m : list (Prim * V)) : list V := snd <$> m.

(** [[...existingUsers, ...newUsers].reduce((acc, user) => acc.set(user.userId, user), new Map())] *)
Definition uniqueUsers (existingUsers newUsers : list User) : list (Prim * User) :=
  foldl (λ acc user, Map_set (userId user) user acc) [] (existingUsers ++ newUsers).

(** The merge step: [mergedUsers]. *)
Definition mergeUsers (existingUsers newUsers : list User) : list User :=
  Map_values (uniqueUsers existingUsers newUsers).

(** [mergeAndUpdateUsers(sheetApi, newUsers)] *)
Definition mergeAndUpdateUsers (ss : Spreadsheet) (newUsers : list User)
    : Result (list User) * Spreadsheet :=
  let '(existingUsers, ss1) := readUsersFromSheet ss in
  let mergedUsers := mergeUsers existingUsers newUsers in
  match writeUsersToSheet ss1 mergedUsers with
  | (Err e, ss2) => (Err e, ss2)
  | (Ok _, ss2)  => (Ok mergedUsers, ss2)
  end.

(** *** The merge, described without the [Map] *)

(** The last user of [l] with the key [k]. *)
Fixpoint lastWithKey (k : Prim) (l : list User) : option User :=
  match l with
  | [] => None
  | u :: l' =>
      match lastWithKey k l' with
      | Some u' => Some u'
      | None => if decide (userId u = k) then Some u else None
      end
  end.

(** The keys of [l] that are not in [seen], each at its first occurrence. *)
Fixpoint firstOccurrences (seen l : list Prim) : list Prim :=
  match l with
  | [] => []
  | k :: l' =>
      if decide (k ∈ seen) then firstOccurrences seen l'
      else k :: firstOccurrences (seen ++ [k]) l'
  end.

(** The value of the first entry of [m] with the key [k]. *)
Fixpoint Map_get {V} (k : Prim) (m : list (Prim * V)) : option V :=
  match m with
  | [] => None
  | (k', v) :: m' => if decide (k' = k) then Some v else Map_get k m'
  end.

(** ** Notions of the specification *)

(** A rectangular table: every element is a row and all rows have the
    same length. *)
Definition Rectangular (elems : list JsElem) : Prop :=
  ∃ rows, elems = EArray <$> rows
          ∧ ∀ r r', r ∈ rows → r' ∈ rows → length r = length r'.

(** The two errors [validateData] raises on a malformed table. *)
Definition isShapeError (e : JsError) : bool :=
  match e with
  | DataNot2D | RowLengthMismatch => true
  | _ => false
  end.

(** A Member of the specification: three non-empty strings. *)
Definition ValidMember (u : User) : Prop :=
  ∃ k a b, u = mkUser (PStr k) (Some (mkName (PStr a) (PStr b)))
           ∧ k ≠ "" ∧ a ≠ "" ∧ b ≠ "".

(** ** A simulated workspace, used in the examples *)

(** Three stored or fetched Members. *)
Definition alice : User := mkUser (PStr "U1") (Some (mkName (PStr "a") (PStr "Alice"))).
Definition alicia : User := mkUser (PStr "U1") (Some (mkName (PStr "a2") (PStr "Alicia"))).
Definition bob : User := mkUser (PStr "U2") (Some (mkName (PStr "b") (PStr "Bob"))).

(** [params[key]] *)
Fixpoint lookupParam (key : string) (params : list (string * Prim)) : Prim :=
  match params with
  | [] => PUndefined
  | (k, v) :: params' => if decide (k = key) then v else lookupParam key params'
  end.

Definition simPage (ids : list string) (cursor : string) : SlackResponse :=
  mkResponse true PUndefined (PStr <$> ids) (Some (mkMetadata (PStr cursor))) None.

(** A channel of six members, served two at a time under the cursors
    ["c1"] and ["c2"]; the last page carries the empty cursor. *)
Definition simMembers (cursor : Prim) : SlackResponse :=
  if decide (cursor = PUndefined) then simPage ["U1"; "U2"] "c1"
  else if decide (cursor = PStr "c1") then simPage ["U3"; "U4"] "c2"
  else simPage ["U5"; "U6"] "".

Definition simPages : list SlackResponse :=
  [simPage ["U1"; "U2"] "c1"; simPage ["U3"; "U4"] "c2"; simPage ["U5"; "U6"] ""].

(** [users.info]: Slack reports an error for ["U2"]; ["U4"] has a display
    name of one token; every other member is called ["s100 Taro"]. *)
Definition simUserInfo (userId : Prim) : SlackResponse :=
  if decide (userId = PStr "U2")
  then mkResponse false (PStr "user_not_found") [] None None
  else
    let displayName := if decide (userId = PStr "U4") then "Taro" else "s100 Taro" in
    mkResponse true PUndefined [] None
      (Some (mkSlackUser userId (Some (mkProfile (PStr displayName))))).

(** The simulated transport; its state counts the requests served. *)
Definition simFetch (calls : nat) (req : Request) : Result SlackResponse * nat :=
  if decide (endpoint req = "conversations.members")
  then (Ok (simMembers (lookupParam "cursor" (params req))), S calls)
  else if decide (endpoint req = "users.info")
  then (Ok (simUserInfo (lookupParam "user" (params req))), S calls)
  else (Err (TransportError "unknown method"), S calls).

Definition simUserIds : list Prim :=
  [PStr "U1"; PStr "U2"; PStr "U3"; PStr "U4"; PStr "U5"; PStr "U6"].

Definition taro (userId : string) : User :=
  mkUser (PStr userId) (Some (mkName (PStr "s100") (PStr "Taro"))).

(** ** A listing that fails on the way *)

Section SlackApiFailure.

Context {World : Type}.
Variable fetch : World → Request → Result SlackResponse * World.

(** [PageChainFails channelId w cursor pages e w']: starting in [w] with
    [cursor], the source answers with the pages [pages], each with a cursor
    for the next request, and the request after the last of them raises
    [e]. *)
Inductive PageChainFails (channelId : Prim)
    : World → Prim → list SlackResponse → JsError → World → Prop :=
  | PageChainFails_here w cursor e w' :
      request fetch w "conversations.members" "GET"
        (membersParams channelId cursor) = (Err e, w') →
      PageChainFails channelId w cursor [] e w'
  | PageChainFails_later w cursor response w1 pages e w' :
      request fetch w "conversations.members" "GET"
        (membersParams channelId cursor) = (Ok response, w1) →
      truthy (nextCursorOf response) = true →
      PageChainFails channelId w1 (nextCursorOf response) pages e w' →
      PageChainFails channelId w cursor (response :: pages) e w'.

End SlackApiFailure.

(** ** [main] and the two constructors *)

(** The errors of the set-up of a run, one constructor per [throw] site of
    the constructors and of the check of the script properties. *)
Inductive SetupError : Type :=
  | TokenInvalid                (* "token must be a string which is NOT empty" *)
  | SheetIdInvalid              (* "sheetId must be a string which is NOT empty" *)
  | MissingProperty (prop : string).  (* the message names the property *)

(** What [main] raises: an error of the set-up or an error of the run. *)
Inductive MainError : Type :=
  | Setup (e : SetupError)
  | Raised (e : JsError).

Inductive Outcome (A : Type) : Type :=
  | Returned (a : A)
  | Thrown (e : MainError).
Arguments Returned {A} a.
Arguments Thrown {A} e.

(** The spreadsheets of the service, by their ids. *)
Abbreviation Docs := (gmap string (gmap string Sheet)).

(** [properties.getProperty(key)]: the value, or [null]. *)
Definition getProperty (properties : gmap string string) (key : string) : Prim :=
  match properties !! key with
  | Some value => PStr value
  | None => PNull
  end.

Definition requiredProps : list string :=
  ["SLACK_API_TOKEN"; "SLACK_CHANNEL_ID"; "SPREAD_SHEET_ID"].

(** The loop [for (const prop of requiredProps)] of [main]: the property
    it raises for, if any. *)
Fixpoint firstMissing (properties : gmap string string) (props : list string)
    : option string :=
  match props with
  | [] => None
  | prop :: props' =>
      if negb (truthy (getProperty properties prop)) then Some prop
      else firstMissing properties props'
  end.

(** [new SlackApi(token)]: the object keeps the token. *)
Definition newSlackApi (token : Prim) : Outcome string :=
  match token with
  | PStr s => if String.eqb s "" then Thrown (Setup TokenInvalid) else Returned s
  | _ => Thrown (Setup TokenInvalid)
  end.

(** Modelled from the spec: the "store location identifier" of the
    configuration ([SpreadsheetApp.openById(sheetId)]): the spreadsheet
    stored under the id; the service raises when there is none. *)
Definition openById (docs : Docs) (sheetId : string) : Result (gmap string Sheet) :=
  match docs !! sheetId with
  | Some ss => Ok ss
  | None => Err (ServiceError "The document cannot be opened")
  end.

(** [new SpreadSheetApi(sheetId)]: the object keeps the id and the
    spreadsheet it opened. *)
Definition newSpreadSheetApi (docs : Docs) (sheetId : Prim)
    : Outcome (string * gmap string Sheet) :=
  match sheetId with
  | PStr s =>
      if String.eqb s "" then Thrown (Setup SheetIdInvalid)
      else
        match openById docs s with
        | Ok ss => Returned (s, ss)
        | Err e => Thrown (Raised e)
        end
  | _ => Thrown (Setup SheetIdInvalid)
  end.

Section Main.

(** The transport sends the token of the [SlackApi] object with every
    request: one transport per token. *)
Context {World : Type}.
Variable fetchWith : string → World → Request → Result SlackResponse * World.

(** [main()], on the script properties, the world outside and the
    spreadsheets of the service.  What it catches it raises again. *)
Definition main (fuel : nat) (properties : gmap string string) (w : World)
    (docs : Docs) : option (Outcome (list User) * World * Docs) :=
  match firstMissing properties requiredProps with
  | Some prop => Some (Thrown (Setup (MissingProperty prop)), w, docs)
  | None =>
      match newSlackApi (getProperty properties "SLACK_API_TOKEN") with
      | Thrown e => Some (Thrown e, w, docs)
      | Returned token =>
          match newSpreadSheetApi docs (getProperty properties "SPREAD_SHEET_ID") with
          | Thrown e => Some (Thrown e, w, docs)
          | Returned (sheetId, ss) =>
              match fetchAndParseUsers (fetchWith token) fuel w
                      (getProperty properties "SLACK_CHANNEL_ID") with
              | None => None
              | Some (Err e, w') => Some (Thrown (Raised e), w', docs)
              | Some (Ok parsedUsers, w') =>
                  match mergeAndUpdateUsers ss parsedUsers with
                  | (Err e, ss') =>
                      Some (Thrown (Raised e), w', <[sheetId := ss']> docs)
                  | (Ok finalUsers, ss') =>
                      Some (Returned finalUsers, w', <[sheetId := ss']> docs)
                  end
              end
          end
      end
  end.

End Main.

(** ** More simulated sources, used in the examples *)

(** A source that hands out a cursor with every page. *)
Definition endlessFetch (w : unit) (req : Request) : Result SlackResponse * unit :=
  (Ok (simPage ["U1"] "again"), w).

(** The simulated workspace with a transport that gives up from the third
    request on. *)
Definition flakyFetch (calls : nat) (req : Request) : Result SlackResponse * nat :=
  if Nat.ltb calls 2 then simFetch calls req
  else (Err (TransportError "timeout"), S calls).

Definition simProperties : gmap string string :=
  {[ "SLACK_API_TOKEN" := "xoxb-1";
     "SLACK_CHANNEL_ID" := "C0";
     "SPREAD_SHEET_ID" := "sheet1" ]}.

(** One spreadsheet, without any sheet. *)
Definition simDocs : Docs := {[ "sheet1" := ∅ ]}.

(** A user without [name], and a sheet of two columns. *)
Definition nameless : User := mkUser (PStr "U9") None.
Definition narrowSheet : Sheet := [[PStr "userId"; PStr "id"]; [PStr "U1"; PStr "a"]].

(** ** The URL of a request *)

(** [String(value)], as a template literal and [encodeURIComponent] apply
    it to a primitive value.  An integer prints in decimal notation (below
    10^21 in absolute value; the script sends 200 and 1000). *)
Definition ToString (v : Prim) : string :=
  match v with
  | PUndefined => "undefined"
  | PNull => "null"
  | PBool true => "true"
  | PBool false => "false"
  | PNum n => pretty n
  | PStr s => s
  end.

(** The characters [encodeURIComponent] leaves as they are:
    [A-Z a-z 0-9 - _ . ! ~ * ' ( )]. *)
Definition unescaped (c : ascii) : bool :=
  let n := N_of_ascii c in
  ((48 <=? n) && (n <=? 57))%N || ((65 <=? n) && (n <=? 90))%N
  || ((97 <=? n) && (n <=? 122))%N
  || bool_decide (c ∈ ["-"; "_"; "."; "!"; "~"; "*"; "'"; "("; ")"]%char).

(** The hexadecimal digit of four bits, the highest first. *)
Definition hexDigit (b3 b2 b1 b0 : bool) : ascii :=
  match b3, b2, b1, b0 with
  | false, false, false, false => "0"
  | false, false, false, true => "1"
  | false, false, true, false => "2"
  | false, false, true, true => "3"
  | false, true, false, false => "4"
  | false, true, false, true => "5"
  | false, true, true, false => "6"
  | false, true, true, true => "7"
  | true, false, false, false => "8"
  | true, false, false, true => "9"
  | true, false, true, false => "A"
  | true, false, true, true => "B"
  | true, true, false, false => "C"
  | true, true, false, true => "D"
  | true, true, true, false => "E"
  | true, true, true, true => "F"
  end%char.

(** [%XX] for one byte of the UTF-8 form of the string. *)
Definition escapeByte (c : ascii) : string :=
  match c with
  | Ascii b0 b1 b2 b3 b4 b5 b6 b7 =>
      String "%" (String (hexDigit b7 b6 b5 b4) (String (hexDigit b3 b2 b1 b0) EmptyString))
  end.

(** [encodeURIComponent(s)], on the bytes of the UTF-8 form of [s]. *)
Fixpoint encodeURIComponent (s : string) : string :=
  match s with
  | EmptyString => EmptyString
  | String c s' =>
      if unescaped c then String c (encodeURIComponent s')
      else escapeByte c +:+ encodeURIComponent s'
  end.

(** [Object.entries(params).map(([key, value]) =>
    `${encodeURIComponent(key)}=${encodeURIComponent(value)}`).join("&")];
    [params] lists the entries of the object in the order of insertion. *)
Definition queryParams (params : list (string * Prim)) : string :=
  join "&" ((λ '(key, value),
               encodeURIComponent key
               +:+ String "=" (encodeURIComponent (ToString value))) <$> params).

(** [this.baseUrl] *)
Definition baseUrl : string := "https://slack.com/api".

(** The [url] that [request(endpoint, method, params)] hands to
    [UrlFetchApp.fetch]. *)
Definition requestUrl (endpoint method : string) (params : list (string * Prim))
    : string :=
  let url := baseUrl +:+ String "/" endpoint in
  if String.eqb method "GET" && Nat.ltb 0 (length params)
  then url +:+ String "?" (queryParams params)
  else url.

(** *** Reading a query back, as the receiver of the request does *)

(** The four bits of a hexadecimal digit, the highest first. *)
Definition hexBits (c : ascii) : option (bool * bool * bool * bool) :=
  match c with
  | "0" => Some (false, false, false, false)
  | "1" => Some (false, false, false, true)
  | "2" => Some (false, false, true, false)
  | "3" => Some (false, false, true, true)
  | "4" => Some (false, true, false, false)
  | "5" => Some (false, true, false, true)
  | "6" => Some (false, true, true, false)
  | "7" => Some (false, true, true, true)
  | "8" => Some (true, false, false, false)
  | "9" => Some (true, false, false, true)
  | "A" | "a" => Some (true, false, true, false)
  | "B" | "b" => Some (true, false, true, true)
  | "C" | "c" => Some (true, true, false, false)
  | "D" | "d" => Some (true, true, false, true)
  | "E" | "e" => Some (true, true, true, false)
  | "F" | "f" => Some (true, true, true, true)
  | _ => None
  end%char.

(** Percent-decoding: [%XX] stands for the byte [XX], every other
    character for itself; [None] for a [%] that two hexadecimal digits do
    not follow. *)
Fixpoint percentDecode (s : string) : option string :=
  match s with
  | EmptyString => Some EmptyString
  | String c s' =>
      if Ascii.eqb c "%" then
        match s' with
        | String h (String l s'') =>
            match hexBits h, hexBits l, percentDecode s'' with
            | Some (b7, b6, b5, b4), Some (b3, b2, b1, b0), Some r =>
                Some (String (Ascii b0 b1 b2 b3 b4 b5 b6 b7) r)
            | _, _, _ => None
            end
        | _ => None
        end
      else String c <$> percentDecode s'
  end.

(** The keys and values of a query: the pieces between [&], each cut at
    [=] and decoded. *)
Definition parseQuery (query : string) : list (list (option string)) :=
  (λ entry, percentDecode <$> split "=" entry) <$> split "&" query.

(** ** Tokens separated by white space *)

(** The white space characters of ASCII: tab, line feed, vertical tab,
    form feed, carriage return and space. *)
Definition isWhitespace (c : ascii) : bool :=
  let n := N_of_ascii c in
  ((9 <=? n) && (n <=? 13))%N || (n =? 32)%N.

(** The pieces of [s] between its white space characters. *)
Fixpoint whitespaceSplit (s : string) : list string :=
  match s with
  | EmptyString => [EmptyString]
  | String c s' =>
      if isWhitespace c then EmptyString :: whitespaceSplit s'
      else match whitespaceSplit s' with
           | t :: ts => String c t :: ts
           | [] => [String c EmptyString]
           end
  end.

(** The white-space-separated tokens of [s]: the pieces that are not
    empty. *)
Definition whitespaceTokens (s : string) : list string :=
  filter (λ t, t ≠ EmptyString) (whitespaceSplit s).

(** Two display names with two white-space-separated tokens each: a tab
    between the tokens, and two spaces between them. *)
Definition tabbedName : string := "s123" +:+ String "009" "Taro".
Definition widelySpacedName : string := "s123  Taro".

(** ** The identifiers behind the outcomes *)

(** The identifier of an outcome that is a user, and of one that is an
    error. *)
Definition succeededId (o : Prim * Result User) : option Prim :=
  match o.2 with Ok _ => Some o.1 | Err _ => None end.

Definition failedId (o : Prim * Result User) : option Prim :=
  match o.2 with Ok _ => None | Err _ => Some o.1 end.

Section SlackApiOutcomes.

Context {World : Type}.
Variable fetch : World → Request → Result SlackResponse * World.

(** Whether the [try] block of [fetchAndParseUsers] runs to its end for
    [userId] in the state [w]. *)
Definition succeedsAt (w : World) (userId : Prim) : bool :=
  match (tryUser fetch w userId).1 with
  | Ok _ => true
  | Err _ => false
  end.

End SlackApiOutcomes.

(** * Properties *)

(** ** [split] and [join] *)

Lemma split_not_nil sep s : split sep s ≠ [].
Proof.
  destruct s as [|c s]; simpl; [done|].
  destruct (Ascii.eqb c sep); [done|].
  by destruct (split sep s).
Qed.

Lemma join_cons sep t ts :
  ts ≠ [] → join sep (t :: ts) = t +:+ String sep (join sep ts).
Proof. by destruct ts. Qed.

Lemma join_split sep s : join sep (split sep s) = s.
Proof.
  induction s as [|c s IH]; simpl; [done|].
  destruct (Ascii.eqb c sep) eqn:Hc.
  - apply Ascii.eqb_eq in Hc as ->.
    rewrite join_cons by apply split_not_nil. by rewrite IH.
  - pose proof (split_not_nil sep s) as Hne.
    destruct (split sep s) as [|t ts]; [done|].
    destruct ts as [|t' ts]; simpl in *; by rewrite <- IH.
Qed.

Lemma split_no_sep sep s : Forall (λ t, has_char sep t = false) (split sep s).
Proof.
  induction s as [|c s IH]; simpl.
  - by constructor.
  - destruct (Ascii.eqb c sep) eqn:Hc.
    + by constructor.
    + destruct (split sep s) as [|t ts]; simpl.
      * constructor; [|done]. simpl. by rewrite Hc.
      * inversion IH; subst. constructor; [|done]. simpl. by rewrite Hc.
Qed.

Lemma split_token sep t : has_char sep t = false → split sep t = [t].
Proof.
  induction t as [|c t IH]; simpl; [done|].
  intros [Hc Ht]%orb_false_iff. rewrite Hc, (IH Ht). done.
Qed.

Lemma split_token_sep sep t rest :
  has_char sep t = false →
  split sep (t +:+ String sep rest) = t :: split sep rest.
Proof.
  induction t as [|c t IH]; simpl.
  - intros _. by rewrite Ascii.eqb_refl.
  - intros [Hc Ht]%orb_false_iff.
    change (String c t +:+ String sep rest) with (String c (t +:+ String sep rest)).
    simpl. rewrite Hc, (IH Ht). done.
Qed.

Lemma split_join sep toks :
  toks ≠ [] → Forall (λ t, has_char sep t = false) toks →
  split sep (join sep toks) = toks.
Proof.
  induction toks as [|t ts IH]; [done|].
  intros _ Hall. inversion Hall as [|? ? Ht Hts]; subst.
  destruct ts as [|t' ts].
  - simpl. by apply split_token.
  - rewrite join_cons by done.
    rewrite split_token_sep by done. by rewrite IH.
Qed.

(** The code's [split] computes the one splitting of a string. *)
Lemma SplitsInto_split raw : SplitsInto raw (split " " raw).
Proof. split; [by rewrite join_split | apply split_no_sep]. Qed.

Lemma SplitsInto_unique raw toks :
  toks ≠ [] → SplitsInto raw toks → split " " raw = toks.
Proof. intros Hne [-> Hall]. by apply split_join. Qed.

Lemma SplitsInto_nil raw : SplitsInto raw [] → raw = "".
Proof. by intros [-> _]. Qed.

(** ** [User.parseFromSlackUser] *)

Lemma truthy_PStr_true s : s ≠ "" → truthy (PStr s) = true.
Proof. intros Hs. simpl. by apply negb_true_iff, String.eqb_neq. Qed.

Lemma truthy_PStr_inv s : truthy (PStr s) = true → s ≠ "".
Proof. simpl. by intros ?%negb_true_iff%String.eqb_neq. Qed.

Lemma join_two_not_empty a b : join " " [a; b] ≠ "".
Proof. simpl. by destruct a. Qed.

(** The parser on a string display name, by the result of [split]. *)
Lemma parseDisplayName_split uid raw :
  parseDisplayName uid raw =
    if negb (truthy (PStr raw)) then Err DisplayNameNotFound
    else match split " " raw with
         | [a; b] =>
             if truthy (PStr a) && truthy (PStr b)
             then Ok (mkUser uid (Some (mkName (PStr a) (PStr b))))
             else Err (InvalidDisplayNameFormat raw)
         | _ => Err (InvalidDisplayNameFormat raw)
         end.
Proof.
  unfold parseDisplayName, parseFromSlackUser.
  cbn [profile display_name slack_id].
  destruct (negb (truthy (PStr raw))); [done|].
  destruct (split " " raw) as [|a [|b [|c rest]]]; try done.
  - unfold elemAt. cbn [lookup list_lookup drop length].
    by destruct (truthy (PStr a)).
  - unfold elemAt. cbn [lookup list_lookup drop length].
    destruct (truthy (PStr a)), (truthy (PStr b)); done.
  - unfold elemAt. cbn [lookup list_lookup drop length].
    destruct (truthy (PStr a)), (truthy (PStr b)); done.
Qed.

(** C3, as amended: the tokens are the pieces between single spaces
    (U+0020), not between white space of any kind.  A display name parses
    exactly when it consists of two non-empty tokens separated by one space;
    the result then carries the two tokens unchanged.  A string with no
    token, one token, more than two tokens or an empty token is rejected
    with a format error; every string has a splitting, so one of the two
    cases applies. *)
Theorem parseFromSlackUser_two_tokens (uid : Prim) (raw : string) :
  (∀ a b, SplitsInto raw [a; b] → a ≠ "" → b ≠ "" →
     parseDisplayName uid raw
     = Ok (mkUser uid (Some (mkName (PStr a) (PStr b)))))
  ∧ (∀ u, parseDisplayName uid raw = Ok u →
     ∃ a b, SplitsInto raw [a; b] ∧ a ≠ "" ∧ b ≠ ""
            ∧ u = mkUser uid (Some (mkName (PStr a) (PStr b))))
  ∧ (∀ toks, SplitsInto raw toks → length toks ≠ 2%nat ∨ "" ∈ toks →
     ∃ e, parseDisplayName uid raw = Err e ∧ isFormatError e = true)
  ∧ (∃ toks, toks ≠ [] ∧ SplitsInto raw toks).
Proof.
  rewrite parseDisplayName_split. split; [|split; [|split]].
  - intros a b Hsp Ha Hb.
    rewrite (SplitsInto_unique raw [a; b]) by done.
    destruct Hsp as [-> _].
    rewrite (truthy_PStr_true _ (join_two_not_empty a b)).
    rewrite !truthy_PStr_true by done. done.
  - intros u Hu.
    destruct (negb (truthy (PStr raw))); [done|].
    pose proof (SplitsInto_split raw) as Hsp.
    destruct (split " " raw) as [|a [|b [|c rest]]]; try done.
    destruct (truthy (PStr a)) eqn:Ha; [|done].
    destruct (truthy (PStr b)) eqn:Hb; [|done].
    simpl in Hu. injection Hu as <-.
    exists a, b. split; [done|]. split; [by apply truthy_PStr_inv|].
    split; [by apply truthy_PStr_inv | done].
  - intros toks Hsp Hbad.
    destruct (negb (truthy (PStr raw))) eqn:Hraw; [by eexists|].
    destruct toks as [|t ts].
    + apply SplitsInto_nil in Hsp as ->. done.
    + rewrite (SplitsInto_unique raw (t :: ts)) by done.
      destruct ts as [|b [|c rest]]; [by eexists| |by eexists].
      destruct Hbad as [Hlen|Hin]; [done|].
      assert (t = "" ∨ b = "") as Hempty.
      { apply elem_of_cons in Hin as [->|Hin]; [by left|].
        apply elem_of_cons in Hin as [->|Hin]; [by right|].
        by apply elem_of_nil in Hin. }
      destruct Hempty as [-> | ->]; simpl.
      * by eexists.
      * rewrite andb_false_r. by eexists.
  - exists (split " " raw). split; [apply split_not_nil | apply SplitsInto_split].
Qed.

Lemma parseFromSlackUser_two_tokens_witness :
  SplitsInto "s123 Taro" ["s123"; "Taro"]
  ∧ parseDisplayName (PStr "U1") "s123 Taro"
    = Ok (mkUser (PStr "U1") (Some (mkName (PStr "s123") (PStr "Taro")))).
Proof.
  assert (SplitsInto "s123 Taro" ["s123"; "Taro"]) as Hsp.
  { split; [reflexivity | repeat constructor]. }
  split; [exact Hsp|].
  apply (proj1 (parseFromSlackUser_two_tokens (PStr "U1") "s123 Taro")
           "s123" "Taro" Hsp); discriminate.
Defined.

(** C3, as the claim words it, fails: a display name with a tab between
    its two tokens, or with two spaces between them, has exactly two
    non-empty white-space-separated tokens, and the parser rejects it. *)
Lemma parseFromSlackUser_whitespace_counterexample :
  whitespaceTokens tabbedName = ["s123"; "Taro"]
  ∧ parseDisplayName (PStr "U1") tabbedName
    = Err (InvalidDisplayNameFormat tabbedName)
  ∧ whitespaceTokens widelySpacedName = ["s123"; "Taro"]
  ∧ parseDisplayName (PStr "U1") widelySpacedName
    = Err (InvalidDisplayNameFormat widelySpacedName)
  ∧ ¬ (∀ uid raw a b,
         whitespaceTokens raw = [a; b] →
         parseDisplayName uid raw
         = Ok (mkUser uid (Some (mkName (PStr a) (PStr b))))).
Proof.
  assert (whitespaceTokens tabbedName = ["s123"; "Taro"]) as Htokens
    by reflexivity.
  assert (parseDisplayName (PStr "U1") tabbedName
          = Err (InvalidDisplayNameFormat tabbedName)) as Hparse by reflexivity.
  split; [exact Htokens|]. split; [exact Hparse|].
  split; [reflexivity|]. split; [reflexivity|].
  intros Hclaim. specialize (Hclaim (PStr "U1") tabbedName _ _ Htokens).
  rewrite Hparse in Hclaim. discriminate.
Qed.

(** ** [validateData] *)

Lemma rowsOf_arrays rows : rowsOf (EArray <$> rows) = rows.
Proof.
  induction rows as [|r rows IH]; [done|].
  unfold rowsOf in *. cbn. by f_equal.
Qed.

Lemma forallb_isArray_arrays rows : forallb isArray (EArray <$> rows) = true.
Proof. by induction rows. Qed.

Lemma forallb_isArray_inv elems :
  forallb isArray elems = true → elems = EArray <$> rowsOf elems.
Proof.
  induction elems as [|[v|cells] elems IH]; [done..|].
  intros H. unfold rowsOf in *. cbn in *. f_equal. by apply IH.
Qed.

Lemma forallb_length_true (rows : list (list Prim)) n :
  forallb (λ row, Nat.eqb (length row) n) rows = true
  ↔ ∀ r, r ∈ rows → length r = n.
Proof.
  rewrite forallb_forall. split.
  - intros H r Hr. apply Nat.eqb_eq, H. by apply list_elem_of_In.
  - intros H r Hr. apply Nat.eqb_eq, H. by apply list_elem_of_In.
Qed.

(** On a table with at least one element, [validateData] accepts the
    rectangular tables and rejects the others with a shape error. *)
Lemma validateData_nonempty (e : JsElem) (elems : list JsElem) :
  (validateData (DArray (e :: elems)) = Ok tt ↔ Rectangular (e :: elems))
  ∧ (¬ Rectangular (e :: elems) →
     ∃ err, validateData (DArray (e :: elems)) = Err err ∧ isShapeError err = true).
Proof.
  unfold validateData.
  destruct (forallb isArray (e :: elems)) eqn:Harr; cbn [negb].
  - apply forallb_isArray_inv in Harr.
    destruct (rowsOf (e :: elems)) as [|row0 rows] eqn:Hrows; [done|].
    destruct (forallb _ (row0 :: rows)) eqn:Hlen; cbn [negb].
    + assert (Rectangular (e :: elems)) as Hrect.
      { exists (row0 :: rows). split; [done|].
        intros r r' Hr Hr'.
        rewrite forallb_length_true in Hlen.
        by rewrite (Hlen r Hr), (Hlen r' Hr'). }
      split; [done|]. by intros [].
    + assert (¬ Rectangular (e :: elems)) as Hnot.
      { intros (rows' & Heq & Hsame).
        rewrite Heq, rowsOf_arrays in Hrows. subst rows'.
        apply not_true_iff_false in Hlen. apply Hlen.
        apply forallb_length_true. intros r Hr. apply Hsame; [done|].
        apply elem_of_cons. by left. }
      split; [split; [done | by intros ?] |]. by eexists.
  - assert (¬ Rectangular (e :: elems)) as Hnot.
    { intros (rows' & Heq & _).
      rewrite Heq, forallb_isArray_arrays in Harr. done. }
    split; [split; [done | by intros ?] |]. by eexists.
Qed.

(** C6. [validateData([])] does not succeed: after both tests pass the
    function reads [data[0].length], and [data[0]] is [undefined]. *)
Theorem validateData_empty_raises :
  validateData (DArray [])
  = Err (TypeError "Cannot read properties of undefined (reading 'length')")
  ∧ Rectangular []
  ∧ validateData (DArray [EArray [PStr "a"; PStr "b"]; EArray [PStr "c"]])
    = Err RowLengthMismatch
  ∧ validateData (DArray [EArray [PStr "a"]]) = Ok tt.
Proof.
  split; [reflexivity|]. split; [|split; reflexivity].
  exists []. split; [done|]. by intros r r' ?%elem_of_nil.
Qed.

(** ** [writeMapToSheet] *)

(** C7. [writeMapToSheet([], sheetName)] raises in [validateData], before
    the sheet is fetched or cleared: the spreadsheet is left as it was. *)
Theorem writeMapToSheet_empty_raises (ss : gmap string Sheet) (sheetName : string) :
  writeMapToSheet ss (DArray []) sheetName
  = (Err (TypeError "Cannot read properties of undefined (reading 'length')"), ss).
Proof. reflexivity. Qed.

(** Past the validation, the branch for the empty table would clear the
    sheet and return: what the function does on a table that is a single
    row shows the clearing. *)
Lemma writeMapToSheet_header_only ss row sheetName :
  writeMapToSheet ss (DArray [EArray row]) sheetName
  = (Ok tt, <[sheetName := [row]]> (getOrCreateSheet ss sheetName)).
Proof.
  unfold writeMapToSheet, validateData. cbn.
  by rewrite Nat.eqb_refl.
Qed.

(** ** [writeUsersToSheet] and [readUsersFromSheet] *)

Lemma userRows_acc users acc :
  foldl (λ rows user, if invalidUser user then rows else rows ++ [userRow user])
        acc users
  = acc ++ (userRow <$> filter (λ u, invalidUser u = false) users).
Proof.
  revert acc. induction users as [|u users IH]; intros acc; simpl.
  - by rewrite app_nil_r.
  - rewrite IH, filter_cons.
    destruct (invalidUser u) eqn:Hu; case_decide; try done.
    by rewrite <- app_assoc.
Qed.

(** The table [writeUsersToSheet] builds: the header, then one row per
    user that passes the test, in the order of [users]. *)
Lemma userRows_eq users :
  userRows users
  = headerRow :: (userRow <$> filter (λ u, invalidUser u = false) users).
Proof. unfold userRows. by rewrite userRows_acc. Qed.

Lemma userRows_not_nil users : userRows users ≠ [].
Proof. by rewrite userRows_eq. Qed.

Lemma userRows_length3 users r : r ∈ userRows users → length r = 3%nat.
Proof.
  rewrite userRows_eq. intros [->|Hr]%elem_of_cons; [done|].
  apply list_elem_of_fmap in Hr as (u & -> & _). done.
Qed.

Lemma validateData_userRows users :
  validateData (DArray (EArray <$> userRows users)) = Ok tt.
Proof.
  pose proof (userRows_length3 users) as Hlen.
  rewrite userRows_eq in *. rewrite fmap_cons.
  apply validateData_nonempty. eexists (_ :: _). split; [done|].
  intros r r' Hr Hr'. by rewrite (Hlen r), (Hlen r').
Qed.

Lemma setRowCells_fresh vals : setRowCells 1 vals [] = vals.
Proof. unfold setRowCells. cbn. by rewrite drop_nil, app_nil_r. Qed.

Lemma setRows_fresh values : setRows 1 values [] = values.
Proof.
  induction values as [|vals values IH]; simpl; [done|].
  by rewrite setRowCells_fresh, IH.
Qed.

(** Writing rows of the width of the range below a header that stands
    alone in the sheet. *)
Lemma range_setValues_below_header header values n :
  forallb (λ vals, Nat.eqb (length vals) n) values = true →
  range_setValues (mkRange 2 1 (length values) n) values [header]
  = Ok (header :: values).
Proof.
  intros Hlen. unfold range_setValues.
  cbn [numRows numColumns range_row range_column].
  rewrite Nat.eqb_refl, Hlen. cbn. by rewrite setRows_fresh.
Qed.

Lemma validateData_Ok_lengths row0 rows :
  validateData (DArray (EArray <$> row0 :: rows)) = Ok tt →
  forallb (λ row, Nat.eqb (length row) (length row0)) rows = true.
Proof.
  unfold validateData.
  rewrite forallb_isArray_arrays, rowsOf_arrays. cbn [negb forallb].
  rewrite Nat.eqb_refl. cbn [andb].
  by destruct (forallb _ rows).
Qed.

(** What [writeMapToSheet] leaves in the sheet for a valid table that
    starts with [row0]. *)
Lemma writeMapToSheet_valid ss row0 rows sheetName :
  validateData (DArray (EArray <$> row0 :: rows)) = Ok tt →
  writeMapToSheet ss (DArray (EArray <$> row0 :: rows)) sheetName
  = (Ok tt, <[sheetName := row0 :: rows]> (getOrCreateSheet ss sheetName)).
Proof.
  intros Hvalid. unfold writeMapToSheet. rewrite Hvalid, rowsOf_arrays.
  cbn [length Nat.eqb head default drop].
  unfold sheet_clear, sheet_appendRow. cbn [app].
  destruct rows as [|r rows]; [done|].
  cbn [length Nat.ltb Nat.leb]. unfold Datatypes.id. rewrite drop_0.
  change (S (S (length rows)) - 1)%nat with (length (r :: rows)).
  by rewrite range_setValues_below_header by by apply validateData_Ok_lengths.
Qed.

Lemma writeUsersToSheet_eq ss users :
  writeUsersToSheet ss users
  = (Ok tt, <["users" := userRows users]> (getOrCreateSheet ss "users")).
Proof.
  unfold writeUsersToSheet.
  pose proof (validateData_userRows users) as Hvalid.
  rewrite userRows_eq in *. by apply writeMapToSheet_valid.
Qed.

(** C10. The table built by [writeUsersToSheet] is the header followed by
    one row per user that passes the test; every row has three cells, the
    validation accepts the table and the write returns normally, whatever
    the users are. *)
Theorem writeUsersToSheet_rows_rectangular (ss : gmap string Sheet) (users : list User) :
  userRows users
    = headerRow :: (userRow <$> filter (λ u, invalidUser u = false) users)
  ∧ (∀ r, r ∈ userRows users → length r = 3%nat)
  ∧ Rectangular (EArray <$> userRows users)
  ∧ validateData (DArray (EArray <$> userRows users)) = Ok tt
  ∧ (writeUsersToSheet ss users).1 = Ok tt.
Proof.
  split; [apply userRows_eq|].
  split; [apply userRows_length3|].
  split.
  - exists (userRows users). split; [done|].
    intros r r' Hr Hr'.
    by rewrite (userRows_length3 users r), (userRows_length3 users r').
  - split; [apply validateData_userRows|]. by rewrite writeUsersToSheet_eq.
Qed.

Lemma foldr_max_const (lens : list nat) n :
  lens ≠ [] → (∀ k, k ∈ lens → k = n) → foldr Nat.max 0%nat lens = n.
Proof.
  induction lens as [|k lens IH]; [done|]. intros _ Hall. simpl.
  assert (k = n) as -> by (apply Hall, elem_of_cons; by left).
  destruct (decide (lens = [])) as [->|Hne]; simpl; [lia|].
  rewrite IH; [lia | done |].
  intros k Hk. apply Hall, elem_of_cons. by right.
Qed.

Lemma sheet_width_const (sheet : Sheet) n :
  sheet ≠ [] → (1 ≤ n)%nat → (∀ r, r ∈ sheet → length r = n) →
  sheet_width sheet = n.
Proof.
  intros Hne Hn Hall. unfold sheet_width.
  rewrite (foldr_max_const _ n); [lia | by destruct sheet |].
  intros k (r & -> & Hr)%list_elem_of_fmap. by apply Hall.
Qed.

Lemma padTo_full {A} (d : A) (l : list A) : padTo (length l) d l = l.
Proof. unfold padTo. by rewrite Nat.sub_diag, app_nil_r. Qed.

(** A sheet whose rows all have [n] cells is read back as it is. *)
Lemma sheet_getValues_rectangular (sheet : Sheet) n :
  sheet ≠ [] → (1 ≤ n)%nat → (∀ r, r ∈ sheet → length r = n) →
  sheet_getValues sheet = sheet.
Proof.
  intros Hne Hn Hall. unfold sheet_getValues.
  rewrite (sheet_width_const sheet n) by done.
  destruct sheet as [|r0 sheet]; [done|].
  rewrite <- (list_fmap_id (r0 :: sheet)) at 2.
  apply list_fmap_ext. intros i r Hr.
  rewrite <- (Hall r); [apply padTo_full|]. by eapply list_elem_of_lookup_2.
Qed.

Lemma getOrCreateSheet_insert (ss : gmap string Sheet) sheetName sheet :
  getOrCreateSheet (<[sheetName := sheet]> ss) sheetName = <[sheetName := sheet]> ss.
Proof. unfold getOrCreateSheet. by rewrite lookup_insert_eq. Qed.

Lemma sheetOf_insert (ss : gmap string Sheet) sheetName sheet :
  sheetOf (<[sheetName := sheet]> ss) sheetName = sheet.
Proof. unfold sheetOf. by rewrite lookup_insert_eq. Qed.

(** A user that passes the test of [writeUsersToSheet] is rebuilt from its
    row by [readUsersFromSheet]. *)
Lemma user_of_userRow u :
  invalidUser u = false →
  mkUser (cellAt (userRow u) 0)
         (Some (mkName (cellAt (userRow u) 1) (cellAt (userRow u) 2))) = u.
Proof.
  destruct u as [k [[a b]|]]; unfold invalidUser; cbn; [done|].
  by rewrite orb_true_r.
Qed.

(** Reading after writing returns the users that passed the test, in the
    order they were written. *)
Lemma readUsersFromSheet_writeUsersToSheet ss users :
  (readUsersFromSheet (writeUsersToSheet ss users).2).1
  = filter (λ u, invalidUser u = false) users.
Proof.
  rewrite writeUsersToSheet_eq. cbn [snd].
  unfold readUsersFromSheet.
  rewrite getOrCreateSheet_insert, sheetOf_insert.
  rewrite (sheet_getValues_rectangular _ 3);
    [| apply userRows_not_nil | lia | apply userRows_length3].
  rewrite userRows_eq. cbn [length drop]. rewrite length_fmap, drop_0.
  destruct (filter _ users) as [|u0 valid] eqn:Hvalid; [done|].
  cbn [length Nat.leb fst]. rewrite <- Hvalid.
  rewrite <- list_fmap_compose.
  rewrite <- (list_fmap_id (filter _ users)) at 2.
  apply list_fmap_ext. intros i u Hu. cbn.
  apply user_of_userRow.
  apply list_elem_of_lookup_2, list_elem_of_filter in Hu. by destruct Hu.
Qed.

Lemma ValidMember_passes u : ValidMember u → invalidUser u = false.
Proof.
  intros (k & a & b & -> & Hk & Ha & Hb). unfold invalidUser. cbn [userId user_name from_option id name].
  by rewrite !truthy_PStr_true.
Qed.

Lemma filter_all {A} (P : A → Prop) `{∀ x, Decision (P x)} (l : list A) :
  Forall P l → filter P l = l.
Proof.
  induction 1 as [|x l Hx Hl IH]; [done|].
  by rewrite filter_cons_True, IH.
Qed.

(** C5. Writing a sequence of valid Members and reading the sheet back
    returns the same Members (same [userId], [id] and [name] for each): the
    same sequence, hence the same set, and the same set for any reordering
    of the input. *)
Theorem write_then_read_roundtrip (ss : gmap string Sheet) (users : list User) :
  Forall ValidMember users →
  (writeUsersToSheet ss users).1 = Ok tt
  ∧ (readUsersFromSheet (writeUsersToSheet ss users).2).1 = users
  ∧ (∀ users', users' ≡ₚ users →
       (readUsersFromSheet (writeUsersToSheet ss users').2).1 ≡ₚ users).
Proof.
  intros Hvalid.
  assert (∀ l, Forall ValidMember l →
               (readUsersFromSheet (writeUsersToSheet ss l).2).1 = l) as Hread.
  { intros l Hl. rewrite readUsersFromSheet_writeUsersToSheet.
    apply filter_all. eapply Forall_impl; [exact Hl|].
    apply ValidMember_passes. }
  split; [by rewrite writeUsersToSheet_eq|].
  split; [by apply Hread|].
  intros users' Hperm. rewrite Hread; [done|]. by rewrite Hperm.
Qed.

(** ** The [Map] of [mergeAndUpdateUsers] *)

Section JsMap.
Context {V : Type}.
Implicit Types (m : list (Prim * V)) (k : Prim) (v : V).

Lemma Map_set_keys k v m :
  (Map_set k v m).*1 = if decide (k ∈ m.*1) then m.*1 else m.*1 ++ [k].
Proof.
  induction m as [|[k' v'] m IH]; cbn [Map_set fmap list_fmap fst].
  - by rewrite decide_False by apply not_elem_of_nil.
  - destruct (decide (k' = k)) as [->|Hne]; cbn [fmap list_fmap fst].
    + rewrite decide_True; [done|]. apply elem_of_cons. by left.
    + fold (fmap (M:=list) (@fst Prim V)). rewrite IH.
      destruct (decide (k ∈ m.*1)) as [Hin|Hnin].
      * rewrite decide_True; [done|]. apply elem_of_cons. by right.
      * rewrite decide_False; [done|].
        intros [->|?]%elem_of_cons; done.
Qed.

Lemma Map_set_NoDup k v m : NoDup m.*1 → NoDup (Map_set k v m).*1.
Proof.
  intros Hnd. rewrite Map_set_keys. case_decide; [done|].
  apply NoDup_app. split; [done|]. split; [|apply NoDup_singleton].
  intros x Hx ->%list_elem_of_singleton. done.
Qed.

Lemma Map_get_set k k' v m :
  Map_get k' (Map_set k v m) = if decide (k = k') then Some v else Map_get k' m.
Proof.
  induction m as [|[k0 v0] m IH]; simpl.
  - done.
  - destruct (decide (k0 = k)) as [->|Hne]; simpl.
    + by destruct (decide (k = k')).
    + rewrite IH. destruct (decide (k0 = k')) as [->|?]; [|done].
      by rewrite decide_False.
Qed.

(** With distinct keys, the values of the map in order are the values
    found under its keys in order. *)
Lemma Map_values_get m :
  NoDup m.*1 → Map_values m = omap (λ k, Map_get k m) m.*1.
Proof.
  unfold Map_values.
  induction m as [|[k v] m IH]; [done|].
  intros [Hk Hnd]%NoDup_cons. cbn [fmap list_fmap fst snd omap list_omap Map_get].
  rewrite decide_True by done. f_equal.
  rewrite IH by done. clear IH Hnd.
  assert (∀ ks : list Prim, k ∉ ks →
    omap (λ k0, Map_get k0 m) ks
    = omap (λ k0, if decide (k = k0) then Some v else Map_get k0 m) ks) as Hext.
  { induction ks as [|k0 ks IHks]; [done|].
    intros [Hne Hks]%not_elem_of_cons. cbn [omap list_omap].
    rewrite decide_False by done. by rewrite IHks. }
  by apply Hext.
Qed.

End JsMap.

(** ** [lastWithKey] and [firstOccurrences] *)

Lemma lastWithKey_app k l1 l2 :
  lastWithKey k (l1 ++ l2)
  = match lastWithKey k l2 with
    | Some u => Some u
    | None => lastWithKey k l1
    end.
Proof.
  induction l1 as [|u l1 IH]; simpl.
  - by destruct (lastWithKey k l2).
  - rewrite IH. by destruct (lastWithKey k l2), (lastWithKey k l1).
Qed.

Lemma lastWithKey_Some k l u :
  lastWithKey k l = Some u → u ∈ l ∧ userId u = k.
Proof.
  induction l as [|u0 l IH]; simpl; [done|].
  destruct (lastWithKey k l) as [u'|].
  - intros [= <-]. destruct IH as [Hin Hk]; [done|].
    split; [by apply elem_of_cons; right | done].
  - case_decide; [|done]. intros [= <-].
    split; [by apply elem_of_cons; left | done].
Qed.

Lemma lastWithKey_None k l : lastWithKey k l = None ↔ k ∉ userId <$> l.
Proof.
  induction l as [|u l IH]; simpl.
  - split; [intros _; apply not_elem_of_nil | done].
  - rewrite not_elem_of_cons. destruct (lastWithKey k l) as [u'|].
    + split; [done|]. intros [_ Hk]. by apply IH in Hk.
    + case_decide as Hu.
      * split; [done|]. by intros [? _].
      * split; [|done]. intros _. split; [done|]. by apply IH.
Qed.

Lemma lastWithKey_is_Some k l : k ∈ userId <$> l → is_Some (lastWithKey k l).
Proof.
  intros Hin. destruct (lastWithKey k l) eqn:Hl; [by eexists|].
  by apply lastWithKey_None in Hl.
Qed.

(** In a list with distinct keys, a user is the last one with its key. *)
Lemma lastWithKey_NoDup l u :
  NoDup (userId <$> l) → u ∈ l → lastWithKey (userId u) l = Some u.
Proof.
  induction l as [|u0 l IH]; simpl.
  - by intros _ ?%elem_of_nil.
  - intros [Hk Hnd]%NoDup_cons [->|Hin]%elem_of_cons.
    + apply lastWithKey_None in Hk as ->. by rewrite decide_True.
    + by rewrite IH.
Qed.

Lemma firstOccurrences_app seen l1 l2 :
  firstOccurrences seen (l1 ++ l2)
  = firstOccurrences seen l1
    ++ firstOccurrences (seen ++ firstOccurrences seen l1) l2.
Proof.
  revert seen. induction l1 as [|k l1 IH]; intros seen; simpl.
  - by rewrite app_nil_r.
  - case_decide; [apply IH|].
    rewrite IH. simpl. by rewrite <- app_assoc.
Qed.

(** Only the members of [seen] matter. *)
Lemma firstOccurrences_ext seen seen' l :
  (∀ k, k ∈ seen ↔ k ∈ seen') →
  firstOccurrences seen l = firstOccurrences seen' l.
Proof.
  revert seen seen'. induction l as [|k l IH]; intros seen seen' Hext; simpl.
  - done.
  - destruct (decide (k ∈ seen)) as [Hin|Hnin].
    + rewrite decide_True by by apply Hext. by apply IH.
    + rewrite decide_False by (by rewrite <- Hext). f_equal.
      apply IH. intros k0. rewrite !elem_of_app, Hext. done.
Qed.

Lemma elem_of_firstOccurrences k seen l :
  k ∈ firstOccurrences seen l ↔ k ∈ l ∧ k ∉ seen.
Proof.
  revert seen. induction l as [|k0 l IH]; intros seen; simpl.
  - split; [by intros ?%elem_of_nil | by intros [?%elem_of_nil _]].
  - destruct (decide (k0 ∈ seen)) as [Hin|Hnin].
    + rewrite IH, elem_of_cons. split; [by intros [? ?]; split; [right|]|].
      intros [[->|?] ?]; done.
    + rewrite !elem_of_cons, IH, not_elem_of_app, list_elem_of_singleton.
      split.
      * intros [->|[? [? ?]]]; [split; [by left | done] | split; [by right | done]].
      * intros [[->|?] ?]; [by left|].
        destruct (decide (k = k0)) as [->|?]; [by left | by right].
Qed.

Lemma filter_ext_in {A} (P Q : A → Prop)
    `{∀ x, Decision (P x)} `{∀ x, Decision (Q x)} (l : list A) :
  (∀ x, x ∈ l → P x ↔ Q x) → filter P l = filter Q l.
Proof.
  induction l as [|x l IH]; intros Hext; [done|].
  rewrite !filter_cons.
  assert (P x ↔ Q x) as Hx by (apply Hext, elem_of_cons; by left).
  rewrite IH by (intros y Hy; apply Hext, elem_of_cons; by right).
  destruct (decide (P x)), (decide (Q x)); tauto || done.
Qed.

(** On a list without repetition, the first occurrences are the elements
    that are not in [seen]. *)
Lemma firstOccurrences_NoDup seen l :
  NoDup l → firstOccurrences seen l = filter (λ k, k ∉ seen) l.
Proof.
  revert seen. induction l as [|k l IH]; intros seen; simpl; [done|].
  intros [Hk Hnd]%NoDup_cons. rewrite filter_cons.
  destruct (decide (k ∈ seen)) as [Hin|Hnin].
  - rewrite decide_False by (by intros ?). by apply IH.
  - rewrite decide_True by done. f_equal.
    rewrite IH by done. apply filter_ext_in.
    intros k0 Hk0. rewrite not_elem_of_app, list_elem_of_singleton.
    split; [by intros [? _]|]. intros ?. split; [done|]. by intros ->.
Qed.

(** ** The merge step *)

Lemma reduce_keys (acc : list (Prim * User)) (l : list User) :
  (foldl (λ acc user, Map_set (userId user) user acc) acc l).*1
  = acc.*1 ++ firstOccurrences acc.*1 (userId <$> l).
Proof.
  revert acc. induction l as [|u l IH]; intros acc.
  - simpl. by rewrite app_nil_r.
  - cbn [foldl fmap list_fmap firstOccurrences].
    rewrite IH, Map_set_keys.
    destruct (decide (userId u ∈ acc.*1)); [done|].
    by rewrite <- app_assoc.
Qed.

Lemma reduce_NoDup (acc : list (Prim * User)) (l : list User) :
  NoDup acc.*1 →
  NoDup (foldl (λ acc user, Map_set (userId user) user acc) acc l).*1.
Proof.
  revert acc. induction l as [|u l IH]; intros acc Hnd; [done|].
  cbn [foldl]. apply IH. by apply Map_set_NoDup.
Qed.

Lemma reduce_get k (acc : list (Prim * User)) (l : list User) :
  Map_get k (foldl (λ acc user, Map_set (userId user) user acc) acc l)
  = match lastWithKey k l with
    | Some u => Some u
    | None => Map_get k acc
    end.
Proof.
  revert acc. induction l as [|u l IH]; intros acc; [done|].
  cbn [foldl lastWithKey]. rewrite IH, Map_get_set.
  destruct (lastWithKey k l); [done|]. by case_decide.
Qed.

Lemma uniqueUsers_keys ex new :
  (uniqueUsers ex new).*1 = firstOccurrences [] (userId <$> ex ++ new).
Proof. unfold uniqueUsers. by rewrite reduce_keys. Qed.

Lemma uniqueUsers_NoDup ex new : NoDup (uniqueUsers ex new).*1.
Proof. apply reduce_NoDup. constructor. Qed.

Lemma uniqueUsers_get k ex new :
  Map_get k (uniqueUsers ex new) = lastWithKey k (ex ++ new).
Proof.
  unfold uniqueUsers. rewrite reduce_get.
  by destruct (lastWithKey k (ex ++ new)).
Qed.

(** The merged list: for every key of both lists in the order of first
    occurrence, the last user with that key. *)
Lemma mergeUsers_eq ex new :
  mergeUsers ex new
  = omap (λ k, lastWithKey k (ex ++ new))
         (firstOccurrences [] (userId <$> ex ++ new)).
Proof.
  unfold mergeUsers.
  rewrite Map_values_get by apply uniqueUsers_NoDup.
  rewrite uniqueUsers_keys.
  apply list_omap_ext, Forall2_same_length_lookup_2; [done|].
  intros i k k' Hk Hk'. assert (k = k') as <- by congruence.
  apply uniqueUsers_get.
Qed.

Lemma omap_lastWithKey_keys (l : list User) (ks : list Prim) :
  (∀ k, k ∈ ks → k ∈ userId <$> l) →
  userId <$> omap (λ k, lastWithKey k l) ks = ks.
Proof.
  induction ks as [|k ks IH]; intros Hin; [done|].
  cbn [omap list_omap].
  destruct (lastWithKey_is_Some k l) as [u Hu].
  { apply Hin, elem_of_cons. by left. }
  rewrite Hu. cbn [fmap list_fmap]. f_equal.
  - by apply lastWithKey_Some in Hu as [_ ?].
  - apply IH. intros k0 ?. apply Hin, elem_of_cons. by right.
Qed.

Lemma mergeUsers_keys ex new :
  userId <$> mergeUsers ex new
  = firstOccurrences [] (userId <$> ex)
    ++ firstOccurrences (userId <$> ex) (userId <$> new).
Proof.
  rewrite mergeUsers_eq, omap_lastWithKey_keys.
  - rewrite fmap_app, firstOccurrences_app. f_equal.
    apply firstOccurrences_ext. intros k.
    rewrite app_nil_l, elem_of_firstOccurrences.
    split; [by intros [? _] | intros ?; split; [done | apply not_elem_of_nil]].
  - intros k. rewrite elem_of_firstOccurrences. by intros [? _].
Qed.

Lemma mergeUsers_NoDup ex new : NoDup (userId <$> mergeUsers ex new).
Proof.
  rewrite mergeUsers_eq, omap_lastWithKey_keys.
  - rewrite <- uniqueUsers_keys. apply uniqueUsers_NoDup.
  - intros k. rewrite elem_of_firstOccurrences. by intros [? _].
Qed.

(** The members of the merged list are the last users of their keys. *)
Lemma elem_of_mergeUsers ex new u :
  u ∈ mergeUsers ex new ↔ lastWithKey (userId u) (ex ++ new) = Some u.
Proof.
  rewrite mergeUsers_eq, list_elem_of_omap. split.
  - intros (k & _ & Hk). by apply lastWithKey_Some in Hk as Hu; destruct Hu as [_ ->].
  - intros Hu. exists (userId u). split; [|done].
    apply elem_of_firstOccurrences. split; [|apply not_elem_of_nil].
    apply lastWithKey_Some in Hu as [? _].
    apply list_elem_of_fmap. by exists u.
Qed.

Lemma omap_fmap_Some {A B C} (f : A → B) (g : B → option C) (h : A → C) (l : list A) :
  (∀ x, x ∈ l → g (f x) = Some (h x)) → omap g (f <$> l) = h <$> l.
Proof.
  induction l as [|x l IH]; intros Hg; [done|].
  cbn [fmap list_fmap omap list_omap].
  rewrite Hg by (apply elem_of_cons; by left). f_equal.
  apply IH. intros y Hy. apply Hg, elem_of_cons. by right.
Qed.

Lemma omap_filter_fmap {A B} (f : A → B) (g : B → option A)
    (P : B → Prop) `{∀ y, Decision (P y)} (l : list A) :
  (∀ x, x ∈ l → g (f x) = Some x) →
  omap g (filter P (f <$> l)) = filter (λ x, P (f x)) l.
Proof.
  induction l as [|x l IH]; intros Hg; [done|].
  cbn [fmap list_fmap]. rewrite !filter_cons.
  assert (omap g (filter P (f <$> l)) = filter (λ x, P (f x)) l) as IH'.
  { apply IH. intros y Hy. apply Hg, elem_of_cons. by right. }
  destruct (decide (P (f x))); [|done].
  cbn [omap list_omap]. rewrite Hg by (apply elem_of_cons; by left).
  by rewrite IH'.
Qed.

(** The merged list when each of the two lists has distinct keys: the
    stored users in their order, each replaced by the fetched user with the
    same key when there is one, then the fetched users with a key that is
    not stored, in their order. *)
Lemma mergeUsers_distinct ex new :
  NoDup (userId <$> ex) → NoDup (userId <$> new) →
  mergeUsers ex new
  = ((λ u, default u (lastWithKey (userId u) new)) <$> ex)
    ++ filter (λ u, userId u ∉ userId <$> ex) new.
Proof.
  intros Hex Hnew.
  rewrite mergeUsers_eq, fmap_app, firstOccurrences_app, omap_app.
  rewrite !firstOccurrences_NoDup by done. f_equal.
  - rewrite filter_all by (apply Forall_forall; intros; apply not_elem_of_nil).
    apply omap_fmap_Some. intros u Hu.
    rewrite lastWithKey_app, (lastWithKey_NoDup ex u) by done.
    by destruct (lastWithKey (userId u) new).
  - rewrite app_nil_l.
    rewrite (filter_ext_in _ (λ k, k ∉ userId <$> ex)).
    + pose proof (omap_filter_fmap userId (λ k, lastWithKey k (ex ++ new))
                    (λ k, k ∉ userId <$> ex) new) as Hfilter.
      apply Hfilter. intros u Hu.
      by rewrite lastWithKey_app, (lastWithKey_NoDup new u).
    + intros k _.
      rewrite <- (firstOccurrences_NoDup [] (userId <$> ex)) by done.
      rewrite elem_of_firstOccurrences.
      split; [|by intros Hk [? _]].
      intros Hk Hin. apply Hk. split; [done | apply not_elem_of_nil].
Qed.

Lemma mergeAndUpdateUsers_eq ss newUsers :
  mergeAndUpdateUsers ss newUsers
  = let existingUsers := (readUsersFromSheet ss).1 in
    let mergedUsers := mergeUsers existingUsers newUsers in
    (Ok mergedUsers,
     <["users" := userRows mergedUsers]>
       (getOrCreateSheet (readUsersFromSheet ss).2 "users")).
Proof.
  unfold mergeAndUpdateUsers.
  destruct (readUsersFromSheet ss) as [existingUsers ss1].
  by rewrite writeUsersToSheet_eq.
Qed.

(** C1. The merged list holds one Member per [userId]; its keys are the
    keys of the stored and of the fetched list; the Member of a key that
    occurs in the fetch is the fetched one (the last with that key), and
    the Member of a key that occurs in the store only is the stored one,
    unchanged.  When each list has distinct keys: the merged Members are
    the fetched Members and the stored Members whose key was not fetched.
    [mergeAndUpdateUsers] returns this list for the Members it reads from
    the sheet. *)
Theorem mergeUsers_last_write_wins (ex new : list User) :
  NoDup (userId <$> mergeUsers ex new)
  ∧ (∀ k, k ∈ userId <$> mergeUsers ex new
          ↔ k ∈ userId <$> ex ∨ k ∈ userId <$> new)
  ∧ (∀ u, u ∈ mergeUsers ex new
          ↔ lastWithKey (userId u) new = Some u
            ∨ ((userId u ∉ userId <$> new) ∧ lastWithKey (userId u) ex = Some u))
  ∧ (NoDup (userId <$> ex) → NoDup (userId <$> new) →
     ∀ u, u ∈ mergeUsers ex new
          ↔ u ∈ new ∨ (u ∈ ex ∧ userId u ∉ userId <$> new))
  ∧ (∀ ss, ex = (readUsersFromSheet ss).1 →
           (mergeAndUpdateUsers ss new).1 = Ok (mergeUsers ex new)).
Proof.
  assert (∀ u, u ∈ mergeUsers ex new
          ↔ lastWithKey (userId u) new = Some u
            ∨ ((userId u ∉ userId <$> new) ∧ lastWithKey (userId u) ex = Some u))
    as Hmem.
  { intros u. rewrite elem_of_mergeUsers, lastWithKey_app.
    destruct (lastWithKey (userId u) new) as [u'|] eqn:Hnew.
    - split; [by left|]. intros [?|[Hnot _]]; [done|].
      apply lastWithKey_None in Hnot. congruence.
    - split; [|by intros [?|[_ ?]]].
      intros ?. right. split; [by apply lastWithKey_None | done]. }
  split; [apply mergeUsers_NoDup|].
  split; [|split; [exact Hmem|split]].
  - intros k. rewrite mergeUsers_keys, elem_of_app, !elem_of_firstOccurrences.
    split.
    + intros [[? _]|[? _]]; [by left | by right].
    + intros [?|?]; [left; split; [done | apply not_elem_of_nil]|].
      destruct (decide (k ∈ userId <$> ex)); [left | by right].
      split; [done | apply not_elem_of_nil].
  - intros Hex Hnew u. rewrite Hmem. split.
    + intros [Hu|[Hnot Hu]]; apply lastWithKey_Some in Hu as [? ?]; [by left|].
      right. done.
    + intros [Hu|[Hu Hnot]]; [left | right; split; [done|]];
        by apply lastWithKey_NoDup.
  - intros ss ->. by rewrite mergeAndUpdateUsers_eq.
Qed.

(** C8. Merging a list of Members with distinct keys with itself returns
    the list: nothing is duplicated, nothing is reordered. *)
Theorem mergeUsers_idempotent (users : list User) :
  NoDup (userId <$> users) → mergeUsers users users = users.
Proof.
  intros Hnd. rewrite mergeUsers_distinct by done.
  rewrite (filter_ext_in _ (λ _, False)).
  - assert (filter (λ _ : User, False) users = []) as ->.
    { induction users as [|u l IH]; [done|].
      rewrite filter_cons_False; [|tauto]. apply IH. by apply NoDup_cons in Hnd as [_ ?]. }
    rewrite app_nil_r. rewrite <- (list_fmap_id users) at 2.
    apply list_fmap_ext. intros i u Hu.
    rewrite (lastWithKey_NoDup users u); [done..|].
    by eapply list_elem_of_lookup_2.
  - intros u Hu. split; [|done]. intros Hnot. apply Hnot.
    apply list_elem_of_fmap. by exists u.
Qed.

(** C9. The order of the merged list: the keys of the stored list in the
    order of the store, then the keys that occur in the fetch only, in the
    order of the fetch, each key with the last Member that carries it.
    When each list has distinct keys: every stored Member at its place,
    replaced there by the fetched Member with its key if there is one,
    then the fetched Members with a new key. *)
Theorem mergeUsers_order (ex new : list User) :
  userId <$> mergeUsers ex new
    = firstOccurrences [] (userId <$> ex)
      ++ firstOccurrences (userId <$> ex) (userId <$> new)
  ∧ mergeUsers ex new
    = omap (λ k, lastWithKey k (ex ++ new)) (userId <$> mergeUsers ex new)
  ∧ (NoDup (userId <$> ex) → NoDup (userId <$> new) →
     mergeUsers ex new
     = ((λ u, default u (lastWithKey (userId u) new)) <$> ex)
       ++ filter (λ u, userId u ∉ userId <$> ex) new).
Proof.
  split; [apply mergeUsers_keys|]. split; [|apply mergeUsers_distinct].
  rewrite mergeUsers_eq at 1. f_equal.
  rewrite mergeUsers_eq, omap_lastWithKey_keys; [done|].
  intros k. rewrite elem_of_firstOccurrences. by intros [? _].
Qed.

(** ** [listUsersInChannel] and [fetchAndParseUsers] *)

Section SlackApiProperties.
Context {World : Type}.
Variable fetch : World → Request → Result SlackResponse * World.

(** The loop follows a chain of pages to its end: with fuel for every page
    it returns the members of all pages after those it started with, and
    with less fuel it has not returned. *)
Lemma listUsersInChannel_loop_chain channelId w cursor pages w' :
  PageChain fetch channelId w cursor pages w' →
  ∀ fuel members0,
    ((length pages ≤ fuel)%nat →
     listUsersInChannel_loop fetch fuel w channelId members0 cursor
     = Some (Ok (members0 ++ concat (members <$> pages)), w'))
    ∧ ((fuel < length pages)%nat →
       listUsersInChannel_loop fetch fuel w channelId members0 cursor = None).
Proof.
  induction 1 as [w cursor response w' Hreq Hlast
                 |w cursor response w1 pages w' Hreq Hmore Hchain IH];
    intros fuel members0.
  - destruct fuel as [|fuel]; simpl.
    + split; [lia | done].
    + rewrite Hreq, Hlast, app_nil_r. split; [done | lia].
  - destruct fuel as [|fuel]; cbn [length listUsersInChannel_loop].
    + split; [lia | done].
    + rewrite Hreq, Hmore.
      destruct (IH fuel (members0 ++ members response)) as [Hge Hlt].
      split; intros Hfuel.
      * rewrite Hge by lia. cbn [fmap list_fmap concat]. by rewrite <- app_assoc.
      * apply Hlt. lia.
Qed.

(** C4. For a non-empty channel id and a source whose pages end with a
    page without cursor, [listUsersInChannel] asks for page after page,
    each time with the cursor of the page before, until the page without
    cursor: it returns the members of all pages in order, after as many
    requests as there are pages and not fewer.  A channel whose only page
    is empty gives the empty list. *)
Theorem listUsersInChannel_all_pages (w : World) (channelId : string)
    (pages : list SlackResponse) (w' : World) :
  channelId ≠ "" →
  PageChain fetch (PStr channelId) w PUndefined pages w' →
  (∀ fuel, (length pages ≤ fuel)%nat →
     listUsersInChannel fetch fuel w (PStr channelId)
     = Some (Ok (concat (members <$> pages)), w'))
  ∧ (∀ fuel, (fuel < length pages)%nat →
     listUsersInChannel fetch fuel w (PStr channelId) = None)
  ∧ (concat (members <$> pages) = [] →
     listUsersInChannel fetch (length pages) w (PStr channelId) = Some (Ok [], w')).
Proof.
  intros Hid Hchain.
  assert (notNonEmptyString (PStr channelId) = false) as Hok.
  { simpl. by apply String.eqb_neq. }
  unfold listUsersInChannel. rewrite Hok.
  split; [|split].
  - intros fuel Hfuel.
    by rewrite (proj1 (listUsersInChannel_loop_chain _ _ _ _ _ Hchain fuel [])).
  - intros fuel Hfuel.
    by apply (listUsersInChannel_loop_chain _ _ _ _ _ Hchain fuel []).
  - intros Hempty.
    rewrite (proj1 (listUsersInChannel_loop_chain _ _ _ _ _ Hchain _ [])) by done.
    by rewrite Hempty.
Qed.

(** The loop of [fetchAndParseUsers] appends, to the arrays it starts
    with, the successes and the failures among the outcomes. *)
Lemma fetchAndParseLoop_outcomes w userIds users errors :
  fetchAndParseLoop fetch w userIds users errors
  = (users ++ omap succeeded (outcomes fetch w userIds).1,
     errors ++ omap failed (outcomes fetch w userIds).1,
     (outcomes fetch w userIds).2).
Proof.
  revert w users errors.
  induction userIds as [|userId rest IH]; intros w users errors.
  - simpl. by rewrite !app_nil_r.
  - cbn [fetchAndParseLoop outcomes].
    destruct (tryUser fetch w userId) as [[parsedUser|e] w1].
    + rewrite IH. destruct (outcomes fetch w1 rest) as [rs w2].
      cbn. by rewrite <- app_assoc.
    + rewrite IH. destruct (outcomes fetch w1 rest) as [rs w2].
      cbn. by rewrite <- app_assoc.
Qed.

Lemma outcomes_ids w userIds : (outcomes fetch w userIds).1.*1 = userIds.
Proof.
  revert w. induction userIds as [|userId rest IH]; intros w; [done|].
  cbn [outcomes]. destruct (tryUser fetch w userId) as [r w1].
  specialize (IH w1). destruct (outcomes fetch w1 rest) as [rs w2].
  cbn in *. by rewrite IH.
Qed.

Lemma outcomes_partition (os : list (Prim * Result User)) :
  (length (omap succeeded os) + length (omap failed os))%nat = length os.
Proof.
  induction os as [|[userId [u|e]] os IH]; [done|..]; cbn in *; lia.
Qed.

(** A failure is recorded under the identifier it belongs to. *)
Lemma failed_ids (os : list (Prim * Result User)) userId e :
  (userId, e) ∈ omap failed os ↔ (userId, Err e) ∈ os.
Proof.
  rewrite list_elem_of_omap. split.
  - intros ([i [u|e']] & Hin & Hf); [done|]. by injection Hf as -> ->.
  - intros Hin. by exists (userId, Err e).
Qed.

Lemma succeeded_users (os : list (Prim * Result User)) u :
  u ∈ omap succeeded os ↔ ∃ userId, (userId, Ok u) ∈ os.
Proof.
  rewrite list_elem_of_omap. split.
  - intros ([i [u'|e']] & Hin & Hf); [|done]. injection Hf as ->. by exists i.
  - intros [i Hin]. by exists (i, Ok u).
Qed.

(** C2. For every list of identifiers the loop of [fetchAndParseUsers]
    runs to the end of the list and raises nothing: the users it returns
    are the Members of the identifiers that were fetched and parsed, in
    order; every identifier whose fetch or parse raised is in [errors] with
    the error raised, and is not among the users.  So [fetchAndParseUsers]
    returns normally as soon as the listing of the channel did. *)
Theorem fetchAndParseUsers_contains_failures (w : World) (userIds : list Prim) :
  let os := (outcomes fetch w userIds).1 in
  os.*1 = userIds
  ∧ fetchAndParseLoop fetch w userIds [] []
    = (omap succeeded os, omap failed os, (outcomes fetch w userIds).2)
  ∧ (length (omap succeeded os) + length (omap failed os))%nat = length userIds
  ∧ (∀ userId e, (userId, e) ∈ omap failed os ↔ (userId, Err e) ∈ os)
  ∧ (∀ u, u ∈ omap succeeded os ↔ ∃ userId, (userId, Ok u) ∈ os)
  ∧ (∀ fuel w0 channelId,
       listUsersInChannel fetch fuel w0 channelId = Some (Ok userIds, w) →
       fetchAndParseUsers fetch fuel w0 channelId
       = Some (Ok (omap succeeded os), (outcomes fetch w userIds).2)).
Proof.
  intros os. subst os.
  split; [apply outcomes_ids|].
  split; [by rewrite fetchAndParseLoop_outcomes|].
  split.
  { rewrite outcomes_partition, <- (length_fmap fst). by rewrite outcomes_ids. }
  split; [intros; apply failed_ids|].
  split; [intros; apply succeeded_users|].
  intros fuel w0 channelId Hlist. unfold fetchAndParseUsers.
  by rewrite Hlist, fetchAndParseLoop_outcomes.
Qed.

End SlackApiProperties.

(** ** The properties on the simulated workspace *)

Lemma simPages_chain : PageChain simFetch (PStr "C0") 0%nat PUndefined simPages 3%nat.
Proof.
  eapply PageChain_next; [reflexivity | reflexivity |].
  eapply PageChain_next; [reflexivity | reflexivity |].
  eapply PageChain_last; reflexivity.
Qed.

Lemma mergeUsers_last_write_wins_witness :
  NoDup (userId <$> [alice; bob]) ∧ NoDup (userId <$> [alicia])
  ∧ alicia ∈ mergeUsers [alice; bob] [alicia]
  ∧ alice ∉ mergeUsers [alice; bob] [alicia].
Proof.
  assert (NoDup (userId <$> [alice; bob])) as Hex by compute_done.
  assert (NoDup (userId <$> [alicia])) as Hnew by compute_done.
  pose proof (mergeUsers_last_write_wins [alice; bob] [alicia])
    as (_ & _ & _ & Hmem & _).
  split; [exact Hex|]. split; [exact Hnew|]. split.
  - apply (Hmem Hex Hnew alicia). left. compute_done.
  - intros Hin. apply (Hmem Hex Hnew alice) in Hin as [Hin|[_ Hnot]].
    + revert Hin. compute_done.
    + revert Hnot. compute_done.
Defined.

Lemma fetchAndParseUsers_contains_failures_witness :
  listUsersInChannel simFetch 3 0%nat (PStr "C0") = Some (Ok simUserIds, 3%nat)
  ∧ fetchAndParseUsers simFetch 3 0%nat (PStr "C0")
    = Some (Ok [taro "U1"; taro "U3"; taro "U5"; taro "U6"], 9%nat)
  ∧ fetchAndParseLoop simFetch 3%nat simUserIds [] []
    = ([taro "U1"; taro "U3"; taro "U5"; taro "U6"],
       [(PStr "U2", SlackApiError (PStr "user_not_found"));
        (PStr "U4", InvalidDisplayNameFormat "Taro")],
       9%nat).
Proof.
  pose proof (fetchAndParseUsers_contains_failures simFetch 3%nat simUserIds) as H.
  cbv zeta in H. destruct H as (_ & Hloop & _ & _ & _ & Hall).
  split; [reflexivity|]. split.
  - exact (Hall 3%nat 0%nat (PStr "C0") eq_refl).
  - exact Hloop.
Defined.

Lemma listUsersInChannel_all_pages_witness :
  "C0" ≠ ""
  ∧ PageChain simFetch (PStr "C0") 0%nat PUndefined simPages 3%nat
  ∧ listUsersInChannel simFetch 3 0%nat (PStr "C0") = Some (Ok simUserIds, 3%nat)
  ∧ listUsersInChannel simFetch 2 0%nat (PStr "C0") = None.
Proof.
  assert ("C0" ≠ "") as Hid by discriminate.
  pose proof (listUsersInChannel_all_pages simFetch 0%nat "C0" simPages 3%nat
                Hid simPages_chain) as (Hall & Hless & _).
  split; [exact Hid|]. split; [exact simPages_chain|]. split.
  - apply (Hall 3%nat). simpl. lia.
  - apply (Hless 2%nat). simpl. lia.
Defined.

Lemma write_then_read_roundtrip_witness :
  Forall ValidMember [alice; bob]
  ∧ (readUsersFromSheet (writeUsersToSheet ∅ [alice; bob]).2).1 = [alice; bob].
Proof.
  assert (Forall ValidMember [alice; bob]) as Hvalid.
  { repeat constructor.
    - by exists "U1", "a", "Alice".
    - by exists "U2", "b", "Bob". }
  split; [exact Hvalid|].
  apply (write_then_read_roundtrip ∅ [alice; bob] Hvalid).
Defined.

Lemma mergeUsers_idempotent_witness :
  NoDup (userId <$> [alice; bob])
  ∧ mergeUsers [alice; bob] [alice; bob] = [alice; bob].
Proof.
  assert (NoDup (userId <$> [alice; bob])) as Hnd by compute_done.
  split; [exact Hnd|]. exact (mergeUsers_idempotent [alice; bob] Hnd).
Defined.

Lemma mergeUsers_order_witness :
  NoDup (userId <$> [alice; bob]) ∧ NoDup (userId <$> [taro "U7"; alicia])
  ∧ mergeUsers [alice; bob] [taro "U7"; alicia] = [alicia; bob; taro "U7"].
Proof.
  assert (NoDup (userId <$> [alice; bob])) as Hex by compute_done.
  assert (NoDup (userId <$> [taro "U7"; alicia])) as Hnew by compute_done.
  split; [exact Hex|]. split; [exact Hnew|].
  pose proof (mergeUsers_order [alice; bob] [taro "U7"; alicia])
    as (_ & _ & Horder).
  exact (Horder Hex Hnew).
Defined.

Lemma writeUsersToSheet_rows_rectangular_witness :
  [PStr "U2"; PStr "b"; PStr "Bob"] ∈ userRows [mkUser PUndefined None; bob]
  ∧ length [PStr "U2"; PStr "b"; PStr "Bob"] = 3%nat
  ∧ (writeUsersToSheet ∅ [mkUser PUndefined None; bob]).1 = Ok tt.
Proof.
  pose proof (writeUsersToSheet_rows_rectangular ∅ [mkUser PUndefined None; bob])
    as (_ & Hlen & _ & _ & Hwrite).
  assert ([PStr "U2"; PStr "b"; PStr "Bob"] ∈ userRows [mkUser PUndefined None; bob])
    as Hin by compute_done.
  split; [exact Hin|]. split; [exact (Hlen _ Hin) | exact Hwrite].
Defined.

(** The scenario of the specification: the store holds Alice, the fetch
    brings Bob; afterwards the sheet holds the header and both Members. *)
Example mergeAndUpdateUsers_scenario :
  let stored := (writeUsersToSheet ∅ [alice]).2 in
  (mergeAndUpdateUsers stored [bob]).1 = Ok [alice; bob]
  ∧ (mergeAndUpdateUsers stored [bob]).2 !! "users"
    = Some [headerRow;
            [PStr "U1"; PStr "a"; PStr "Alice"];
            [PStr "U2"; PStr "b"; PStr "Bob"]].
Proof. split; vm_compute; reflexivity. Qed.

(** The overwrite of the specification: a fetched Member replaces the
    stored Member with the same [userId]. *)
Example mergeUsers_overwrite : mergeUsers [alice] [alicia] = [alicia].
Proof. reflexivity. Qed.

(** * Further properties of the script *)

(** ** [User.parseFromSlackUser] on any argument *)

Lemma parseFromSlackUser_string su raw :
  display_name <$> profile su = Some (PStr raw) →
  parseFromSlackUser (Some su) = parseDisplayName (slack_id su) raw.
Proof.
  destruct su as [uid [[d]|]]; cbn; [|done]. by intros [= ->].
Qed.

(** A user that parses has a string as display name. *)
Lemma parseFromSlackUser_Ok_string user u :
  parseFromSlackUser user = Ok u →
  ∃ su raw, user = Some su ∧ display_name <$> profile su = Some (PStr raw).
Proof.
  destruct user as [[uid [[d]|]]|]; cbn; try done.
  destruct d as [| |b|n|s]; cbn; try done.
  - by destruct b.
  - by destruct (negb (n =? 0)).
  - intros _. by eexists (mkSlackUser uid (Some (mkProfile (PStr s)))), s.
Qed.

Lemma parseDisplayName_Ok_inv uid raw u :
  parseDisplayName uid raw = Ok u →
  ∃ a b, raw = a +:+ " " +:+ b ∧ a ≠ "" ∧ b ≠ ""
         ∧ has_char " " a = false ∧ has_char " " b = false
         ∧ u = mkUser uid (Some (mkName (PStr a) (PStr b))).
Proof.
  rewrite parseDisplayName_split.
  destruct (negb (truthy (PStr raw))); [done|].
  pose proof (SplitsInto_split raw) as [Hjoin Hall].
  destruct (split " " raw) as [|a [|b [|c rest]]]; try done.
  destruct (truthy (PStr a)) eqn:Ha; [|done].
  destruct (truthy (PStr b)) eqn:Hb; [|done].
  intros [= <-]. exists a, b.
  apply Forall_cons in Hall as [Hsa Hall]. apply Forall_cons in Hall as [Hsb _].
  split; [exact Hjoin|].
  split; [by apply truthy_PStr_inv|]. split; [by apply truthy_PStr_inv|]. done.
Qed.

Lemma parseDisplayName_Ok_intro uid a b :
  a ≠ "" → b ≠ "" → has_char " " a = false → has_char " " b = false →
  parseDisplayName uid (a +:+ " " +:+ b)
  = Ok (mkUser uid (Some (mkName (PStr a) (PStr b)))).
Proof.
  intros Ha Hb Hsa Hsb. rewrite parseDisplayName_split.
  change (a +:+ " " +:+ b) with (join " " [a; b]).
  rewrite (truthy_PStr_true _ (join_two_not_empty a b)).
  rewrite split_join by (done || by repeat constructor).
  by rewrite !truthy_PStr_true.
Qed.

(** X1. [parseFromSlackUser] returns a user exactly for an object with a
    profile whose display name is [a + " " + b], with [a] and [b] not empty
    and free of spaces; the user then carries the object's id, [a] and [b]:
    the display name can be rebuilt from the parsed name. *)
Theorem parseFromSlackUser_Ok_iff (user : option SlackUser) (u : User) :
  parseFromSlackUser user = Ok u
  ↔ ∃ su a b,
      user = Some su
      ∧ display_name <$> profile su = Some (PStr (a +:+ " " +:+ b))
      ∧ a ≠ "" ∧ b ≠ ""
      ∧ has_char " " a = false ∧ has_char " " b = false
      ∧ u = mkUser (slack_id su) (Some (mkName (PStr a) (PStr b))).
Proof.
  split.
  - intros Hu.
    destruct (parseFromSlackUser_Ok_string user u Hu) as (su & raw & -> & Hraw).
    rewrite (parseFromSlackUser_string su raw Hraw) in Hu.
    apply parseDisplayName_Ok_inv in Hu as (a & b & -> & Hrest).
    by exists su, a, b.
  - intros (su & a & b & -> & Hraw & Ha & Hb & Hsa & Hsb & ->).
    rewrite (parseFromSlackUser_string su _ Hraw).
    by apply parseDisplayName_Ok_intro.
Qed.

(** X2. A parsed user fails the test of [writeUsersToSheet] only through
    its [userId]: it is written to the sheet exactly when the id of the
    Slack object is truthy. *)
Theorem parsed_user_written_iff_id (user : option SlackUser) (u : User) :
  parseFromSlackUser user = Ok u →
  invalidUser u = negb (truthy (userId u)).
Proof.
  intros Hu.
  destruct (parseFromSlackUser_Ok_string user u Hu) as (su & raw & -> & Hraw).
  rewrite (parseFromSlackUser_string su raw Hraw) in Hu.
  apply parseDisplayName_Ok_inv in Hu as (a & b & _ & Ha & Hb & _ & _ & ->).
  unfold invalidUser. cbn [userId user_name from_option id name].
  rewrite !truthy_PStr_true by done. cbn [negb]. by rewrite !orb_false_r.
Qed.

Lemma parsed_user_written_iff_id_witness :
  parseFromSlackUser
    (Some (mkSlackUser PUndefined (Some (mkProfile (PStr "s100 Taro")))))
  = Ok (mkUser PUndefined (Some (mkName (PStr "s100") (PStr "Taro"))))
  ∧ invalidUser (mkUser PUndefined (Some (mkName (PStr "s100") (PStr "Taro"))))
    = true.
Proof.
  split; [reflexivity|].
  exact (parsed_user_written_iff_id
           (Some (mkSlackUser PUndefined (Some (mkProfile (PStr "s100 Taro")))))
           _ eq_refl).
Defined.

(** ** [listUsersInChannel]: failures and endless sources *)

Section SlackApiMoreProperties.
Context {World : Type}.
Variable fetch : World → Request → Result SlackResponse * World.

Lemma listUsersInChannel_loop_fails channelId w cursor pages e w' :
  PageChainFails fetch channelId w cursor pages e w' →
  ∀ fuel members0, (length pages < fuel)%nat →
    listUsersInChannel_loop fetch fuel w channelId members0 cursor
    = Some (Err e, w').
Proof.
  induction 1 as [w cursor e w' Hreq
                 |w cursor response w1 pages e w' Hreq Hmore Hchain IH];
    intros fuel members0 Hfuel.
  - destruct fuel as [|fuel]; [simpl in Hfuel; lia|].
    cbn [listUsersInChannel_loop]. by rewrite Hreq.
  - destruct fuel as [|fuel]; [simpl in Hfuel; lia|].
    cbn [listUsersInChannel_loop]. rewrite Hreq, Hmore.
    apply IH. simpl in Hfuel. lia.
Qed.

(** X3. When a request for a page raises, [listUsersInChannel] raises the
    same error, whatever the number of pages received before: their members
    are not returned.  [fetchAndParseUsers] raises it too, without asking
    for any user. *)
Theorem listUsersInChannel_page_failure (w : World) (channelId : string)
    (pages : list SlackResponse) (e : JsError) (w' : World) :
  channelId ≠ "" →
  PageChainFails fetch (PStr channelId) w PUndefined pages e w' →
  ∀ fuel, (length pages < fuel)%nat →
    listUsersInChannel fetch fuel w (PStr channelId) = Some (Err e, w')
    ∧ fetchAndParseUsers fetch fuel w (PStr channelId) = Some (Err e, w').
Proof.
  intros Hid Hchain fuel Hfuel.
  assert (listUsersInChannel fetch fuel w (PStr channelId) = Some (Err e, w'))
    as Hlist.
  { unfold listUsersInChannel. cbn [notNonEmptyString].
    apply String.eqb_neq in Hid as ->.
    by apply (listUsersInChannel_loop_fails _ _ _ _ _ _ Hchain). }
  split; [exact Hlist|]. unfold fetchAndParseUsers. by rewrite Hlist.
Qed.

Lemma listUsersInChannel_loop_endless (Inv : World → Prim → Prop) channelId :
  (∀ w cursor, Inv w cursor →
     ∃ response w',
       request fetch w "conversations.members" "GET"
         (membersParams channelId cursor) = (Ok response, w')
       ∧ truthy (nextCursorOf response) = true
       ∧ Inv w' (nextCursorOf response)) →
  ∀ fuel w cursor members0, Inv w cursor →
    listUsersInChannel_loop fetch fuel w channelId members0 cursor = None.
Proof.
  intros Hstep fuel. induction fuel as [|fuel IH]; intros w cursor members0 Hinv.
  - done.
  - cbn [listUsersInChannel_loop].
    destruct (Hstep w cursor Hinv) as (response & w' & -> & -> & Hinv').
    by apply IH.
Qed.

(** X4. The loop of [listUsersInChannel] has no bound of its own: against
    a source that answers every request with a page and a cursor (from
    every state it can reach, described by [Inv]) it never returns. *)
Theorem listUsersInChannel_endless (Inv : World → Prim → Prop)
    (w : World) (channelId : string) :
  channelId ≠ "" →
  Inv w PUndefined →
  (∀ w cursor, Inv w cursor →
     ∃ response w',
       request fetch w "conversations.members" "GET"
         (membersParams (PStr channelId) cursor) = (Ok response, w')
       ∧ truthy (nextCursorOf response) = true
       ∧ Inv w' (nextCursorOf response)) →
  ∀ fuel, listUsersInChannel fetch fuel w (PStr channelId) = None.
Proof.
  intros Hid Hinv Hstep fuel.
  unfold listUsersInChannel. cbn [notNonEmptyString].
  apply String.eqb_neq in Hid as ->.
  by apply (listUsersInChannel_loop_endless Inv).
Qed.

(** An identifier that is fetched and parsed is the id of the object the
    source returned for it. *)
Lemma tryUser_Ok_id w userId0 u w' :
  tryUser fetch w userId0 = (Ok u, w') →
  ∃ su, userInfo fetch w userId0 = (Ok (Some su), w') ∧ userId u = slack_id su.
Proof.
  unfold tryUser. destruct (userInfo fetch w userId0) as [[info|e] w1]; [|done].
  intros [= Hparse <-].
  destruct (parseFromSlackUser_Ok_string info u Hparse) as (su & raw & -> & Hraw).
  exists su. split; [done|].
  rewrite (parseFromSlackUser_string su raw Hraw) in Hparse.
  by apply parseDisplayName_Ok_inv in Hparse as (a & b & _ & _ & _ & _ & _ & ->).
Qed.

Lemma succeeded_ids_sublist w userIds :
  (∀ w userId0 su w',
     userInfo fetch w userId0 = (Ok (Some su), w') → slack_id su = userId0) →
  userId <$> omap succeeded (outcomes fetch w userIds).1 `sublist_of` userIds.
Proof.
  intros Hecho. revert w.
  induction userIds as [|userId0 rest IH]; intros w; [done|].
  cbn [outcomes]. destruct (tryUser fetch w userId0) as [r w1] eqn:Htry.
  specialize (IH w1). destruct (outcomes fetch w1 rest) as [rs w2].
  cbn [fst omap list_omap] in *. unfold succeeded at 1. cbn [snd].
  destruct r as [u|e]; cbn [fmap list_fmap].
  - apply tryUser_Ok_id in Htry as (su & Hinfo & ->).
    rewrite (Hecho _ _ _ _ Hinfo). by apply sublist_skip.
  - by apply sublist_cons.
Qed.

Lemma succeeded_ids_eq w userIds :
  (∀ w userId0 su w',
     userInfo fetch w userId0 = (Ok (Some su), w') → slack_id su = userId0) →
  userId <$> omap succeeded (outcomes fetch w userIds).1
  = omap succeededId (outcomes fetch w userIds).1.
Proof.
  intros Hecho. revert w.
  induction userIds as [|userId0 rest IH]; intros w; [done|].
  cbn [outcomes]. destruct (tryUser fetch w userId0) as [r w1] eqn:Htry.
  specialize (IH w1). destruct (outcomes fetch w1 rest) as [rs w2].
  cbn [fst omap list_omap] in *.
  unfold succeeded at 1, succeededId at 1. cbn [fst snd].
  destruct r as [u|e]; cbn [fmap list_fmap]; [|done].
  apply tryUser_Ok_id in Htry as (su & Hinfo & ->).
  by rewrite (Hecho _ _ _ _ Hinfo), IH.
Qed.

Lemma failed_ids_fst (os : list (Prim * Result User)) :
  (omap failed os).*1 = omap failedId os.
Proof.
  induction os as [|[userId0 [u|e]] os IH]; [done|..]; cbn in *; by rewrite ?IH.
Qed.

(** Every identifier is behind a success or behind a failure, once. *)
Lemma outcome_ids_partition (os : list (Prim * Result User)) :
  omap succeededId os ++ omap failedId os ≡ₚ os.*1.
Proof.
  induction os as [|[userId0 [u|e]] os IH]; [done|..]; cbn in *.
  - by constructor.
  - rewrite <- Permutation_middle. by constructor.
Qed.

(** Against a source whose answer for an identifier does not depend on
    the requests made before, the successes are decided identifier by
    identifier. *)
Lemma succeeded_ids_filter w0 w userIds :
  (∀ w1 w2 userId0,
     (tryUser fetch w1 userId0).1 = (tryUser fetch w2 userId0).1) →
  omap succeededId (outcomes fetch w userIds).1
  = filter (λ userId0, succeedsAt fetch w0 userId0 = true) userIds.
Proof.
  intros Hstateless. revert w.
  induction userIds as [|userId0 rest IH]; intros w; [done|].
  cbn [outcomes]. destruct (tryUser fetch w userId0) as [r w1] eqn:Htry.
  specialize (IH w1). destruct (outcomes fetch w1 rest) as [rs w2].
  cbn [fst omap list_omap] in *. unfold succeededId at 1. cbn [fst snd].
  assert (succeedsAt fetch w0 userId0
          = match r with Ok _ => true | Err _ => false end) as Hs.
  { unfold succeedsAt. by rewrite (Hstateless w0 w userId0), Htry. }
  rewrite filter_cons. destruct r as [u|e].
  - rewrite decide_True by done. by rewrite IH.
  - rewrite decide_False by (by rewrite Hs). exact IH.
Qed.

(** X5. When the source answers [users.info] with the user that was asked
    for, the [userId]s of the users [fetchAndParseUsers] collects are the
    identifiers of the channel whose fetch and parse succeeded, in the
    order of the channel, and the identifiers in [errors] are the others:
    together they are the identifiers of the channel, each once.  So the
    collected [userId]s are the identifiers with the failed ones left out;
    distinct identifiers give users with distinct [userId]s.  When the
    answer of the source for an identifier does not depend on the requests
    before, the collected [userId]s are the identifiers for which the [try]
    block succeeds, filtered from the list. *)
Theorem fetchAndParseLoop_ids_sublist (w : World) (userIds : list Prim) :
  (∀ w userId0 su w',
     userInfo fetch w userId0 = (Ok (Some su), w') → slack_id su = userId0) →
  let os := (outcomes fetch w userIds).1 in
  let users := (fetchAndParseLoop fetch w userIds [] []).1.1 in
  let errors := (fetchAndParseLoop fetch w userIds [] []).1.2 in
  os.*1 = userIds
  ∧ userId <$> users = omap succeededId os
  ∧ errors.*1 = omap failedId os
  ∧ (userId <$> users) ++ errors.*1 ≡ₚ userIds
  ∧ userId <$> users `sublist_of` userIds
  ∧ (NoDup userIds → NoDup (userId <$> users))
  ∧ ((∀ w1 w2 userId0,
        (tryUser fetch w1 userId0).1 = (tryUser fetch w2 userId0).1) →
     userId <$> users
     = filter (λ userId0, succeedsAt fetch w userId0 = true) userIds).
Proof.
  intros Hecho os users errors. subst os users errors.
  rewrite fetchAndParseLoop_outcomes. cbn [fst snd app].
  pose proof (succeeded_ids_sublist w userIds Hecho) as Hsub.
  pose proof (succeeded_ids_eq w userIds Hecho) as Heq.
  split; [apply outcomes_ids|]. split; [exact Heq|].
  split; [apply failed_ids_fst|]. split.
  - rewrite Heq, failed_ids_fst, outcome_ids_partition. by rewrite outcomes_ids.
  - split; [exact Hsub|]. split.
    + intros Hnd. by eapply sublist_NoDup.
    + intros Hstateless. rewrite Heq. by apply succeeded_ids_filter.
Qed.

End SlackApiMoreProperties.

(** ** [validateData]: every outcome *)

Lemma forallb_isArray_false elems :
  forallb isArray elems = false ↔ ∃ v, ENotArray v ∈ elems.
Proof.
  induction elems as [|[v|cells] elems IH]; cbn [forallb isArray andb].
  - split; [done|]. by intros [v ?%elem_of_nil].
  - split; [|done]. intros _. exists v. apply elem_of_cons. by left.
  - rewrite IH. split.
    + intros [v Hv]. exists v. apply elem_of_cons. by right.
    + intros [v [?|Hv]%elem_of_cons]; [done|]. by exists v.
Qed.

Lemma forallb_length_false (rows : list (list Prim)) n :
  forallb (λ row, Nat.eqb (length row) n) rows = false
  ↔ ∃ r, r ∈ rows ∧ length r ≠ n.
Proof.
  induction rows as [|r rows IH]; cbn [forallb].
  - split; [done|]. by intros (r & ?%elem_of_nil & _).
  - destruct (Nat.eqb (length r) n) eqn:Hr; cbn [andb].
    + apply Nat.eqb_eq in Hr. rewrite IH. split.
      * intros (r' & Hin & Hne). exists r'. split; [|done].
        apply elem_of_cons. by right.
      * intros (r' & [->|Hin]%elem_of_cons & Hne); [done|]. by exists r'.
    + apply Nat.eqb_neq in Hr. split; [|done]. intros _.
      exists r. split; [|done]. apply elem_of_cons. by left.
Qed.

Lemma EArray_fmap_inj (rows rows' : list (list Prim)) :
  EArray <$> rows = EArray <$> rows' → rows = rows'.
Proof. intros H. by rewrite <- (rowsOf_arrays rows), H, rowsOf_arrays. Qed.

(** X6. The four outcomes of [validateData].  It returns for a non-empty
    array of arrays that all have the length of the first; it raises "Data
    must be a 2D array" for a value that is not an array or has an element
    that is not an array; "All rows must have the same length" for an array
    of arrays one of which differs in length from the first; and a
    [TypeError] for the empty array.  Nothing else happens. *)
Theorem validateData_outcomes (data : JsData) :
  (validateData data = Ok tt
   ↔ ∃ row0 rows, data = DArray (EArray <$> row0 :: rows)
                   ∧ ∀ r, r ∈ rows → length r = length row0)
  ∧ (validateData data = Err DataNot2D
     ↔ (∃ v, data = DNotArray v)
       ∨ ∃ elems v, data = DArray elems ∧ ENotArray v ∈ elems)
  ∧ (validateData data = Err RowLengthMismatch
     ↔ ∃ row0 rows, data = DArray (EArray <$> row0 :: rows)
                     ∧ ∃ r, r ∈ rows ∧ length r ≠ length row0)
  ∧ ((∃ what, validateData data = Err (TypeError what)) ↔ data = DArray [])
  ∧ (validateData data = Ok tt
     ∨ validateData data = Err DataNot2D
     ∨ validateData data = Err RowLengthMismatch
     ∨ ∃ what, validateData data = Err (TypeError what)).
Proof.
  destruct data as [v|elems].
  { cbn [validateData].
    split; [split; [done | by intros (? & ? & ? & _)]|].
    split; [split; [by intros _; left; exists v | done]|].
    split; [split; [done | by intros (? & ? & ? & _)]|].
    split; [split; [by intros [? ?] | done]|]. by right; left. }
  unfold validateData.
  destruct (forallb isArray elems) eqn:Harr; cbn [negb].
  2:{ apply forallb_isArray_false in Harr as [v Hv].
      assert (∀ rows, elems ≠ EArray <$> rows) as Hnot.
      { intros rows ->. apply list_elem_of_fmap in Hv as (? & ? & _). done. }
      split; [split; [done | intros (r0 & rows & [= Heq] & _); destruct (Hnot (r0 :: rows) Heq)]|].
      split; [split; [intros _; right; by exists elems, v | done]|].
      split; [split; [done | intros (r0 & rows & [= Heq] & _); destruct (Hnot (r0 :: rows) Heq)]|].
      split; [split; [by intros [? ?] | intros [= ->]; by apply elem_of_nil in Hv]|].
      by right; left. }
  apply forallb_isArray_inv in Harr.
  assert (∀ v, ENotArray v ∉ elems) as Hrows.
  { intros v Hv. rewrite Harr in Hv.
    apply list_elem_of_fmap in Hv as (? & ? & _). done. }
  destruct (rowsOf elems) as [|row0 rows] eqn:Hrs.
  { cbn in Harr. subst elems.
    split; [split; [done | by intros (? & ? & ? & _)]|].
    split; [split; [done | intros [[? ?]|(els & v & [= <-] & Hv)]; [done | by apply elem_of_nil in Hv]]|].
    split; [split; [done | by intros (? & ? & ? & _)]|].
    split; [split; [done | by intros _; eexists]|].
    right; right; right. by eexists. }
  cbn [forallb]. rewrite Nat.eqb_refl. cbn [andb].
  assert (∀ r0 rs, DArray elems = DArray (EArray <$> r0 :: rs) →
                   r0 = row0 ∧ rs = rows) as Hsame.
  { intros r0 rs Heq. rewrite Harr in Heq.
    assert (row0 :: rows = r0 :: rs) as [= -> ->]; [|done].
    apply EArray_fmap_inj. congruence. }
  assert (∀ els v, DArray elems = DArray els → ENotArray v ∉ els) as Hnone.
  { intros els v [= <-]. apply Hrows. }
  destruct (forallb _ rows) eqn:Hlen; cbn [negb].
  - rewrite forallb_length_true in Hlen.
    split; [split; [intros _; exists row0, rows; by rewrite Harr | done]|].
    split; [split; [done|]|].
    { intros [[? ?]|(els & v & Heq & Hv)]; [done|]. by apply Hnone in Hv. }
    split; [split; [done|]|].
    { intros (r0 & rs & Heq & r & Hr & Hne).
      apply Hsame in Heq as [-> ->]. by apply Hlen in Hr. }
    split; [split; [by intros [? ?] | by rewrite Harr]|]. by left.
  - pose proof Hlen as Hbad. apply forallb_length_false in Hbad.
    split; [split; [done|]|].
    { intros (r0 & rs & Heq & Hall).
      apply Hsame in Heq as [-> ->].
      destruct Hbad as (r & Hr & Hne). by apply Hall in Hr. }
    split; [split; [done|]|].
    { intros [[? ?]|(els & v & Heq & Hv)]; [done|]. by apply Hnone in Hv. }
    split; [split; [intros _; exists row0, rows; by rewrite Harr | done]|].
    split; [split; [by intros [? ?] | by rewrite Harr]|]. by right; right; left.
Qed.

(** ** [getOrCreateSheet] and [writeMapToSheet] *)

Lemma getOrCreateSheet_lookup (ss : gmap string Sheet) sheetName :
  getOrCreateSheet ss sheetName !! sheetName = Some (sheetOf ss sheetName).
Proof.
  unfold getOrCreateSheet, sheetOf.
  destruct (ss !! sheetName) as [sheet|] eqn:Hs; cbn.
  - done.
  - by rewrite lookup_insert_eq.
Qed.

Lemma getOrCreateSheet_lookup_ne (ss : gmap string Sheet) sheetName other :
  other ≠ sheetName → getOrCreateSheet ss sheetName !! other = ss !! other.
Proof.
  intros Hne. unfold getOrCreateSheet.
  destruct (ss !! sheetName); [done|]. by rewrite lookup_insert_ne.
Qed.

Lemma insert_getOrCreateSheet (ss : gmap string Sheet) sheetName sheet :
  <[sheetName := sheet]> (getOrCreateSheet ss sheetName) = <[sheetName := sheet]> ss.
Proof.
  unfold getOrCreateSheet.
  destruct (ss !! sheetName); [done|]. by rewrite insert_insert_eq.
Qed.

Lemma getOrCreateSheet_twice (ss : gmap string Sheet) sheetName :
  getOrCreateSheet (getOrCreateSheet ss sheetName) sheetName
  = getOrCreateSheet ss sheetName.
Proof. unfold getOrCreateSheet at 1. by rewrite getOrCreateSheet_lookup. Qed.

(** X7. [getOrCreateSheet] finds or makes the sheet and touches nothing
    else: afterwards the name is bound, to the sheet it had or to an empty
    one; every other sheet is as before; a second call changes nothing. *)
Theorem getOrCreateSheet_idempotent (ss : gmap string Sheet) (sheetName : string) :
  getOrCreateSheet ss sheetName !! sheetName = Some (default [] (ss !! sheetName))
  ∧ (∀ other, other ≠ sheetName →
       getOrCreateSheet ss sheetName !! other = ss !! other)
  ∧ (is_Some (ss !! sheetName) → getOrCreateSheet ss sheetName = ss)
  ∧ getOrCreateSheet (getOrCreateSheet ss sheetName) sheetName
    = getOrCreateSheet ss sheetName.
Proof.
  split; [apply getOrCreateSheet_lookup|].
  split; [intros other; apply getOrCreateSheet_lookup_ne|].
  split.
  - intros [sheet Hs]. unfold getOrCreateSheet. by rewrite Hs.
  - apply getOrCreateSheet_twice.
Qed.

Lemma validateData_Ok_arrays data :
  validateData data = Ok tt →
  ∃ row0 rows, data = DArray (EArray <$> row0 :: rows).
Proof.
  destruct data as [v|elems]; [done|]. unfold validateData.
  destruct (forallb isArray elems) eqn:Harr; [|done]. cbn [negb].
  apply forallb_isArray_inv in Harr.
  destruct (rowsOf elems) as [|row0 rows]; [done|]. intros _.
  exists row0, rows. by rewrite Harr.
Qed.

Lemma writeMapToSheet_Ok ss data sheetName :
  validateData data = Ok tt →
  ∃ row0 rows,
    data = DArray (EArray <$> row0 :: rows)
    ∧ writeMapToSheet ss data sheetName
      = (Ok tt, <[sheetName := row0 :: rows]> ss).
Proof.
  intros Hvalid.
  destruct (validateData_Ok_arrays data Hvalid) as (row0 & rows & ->).
  exists row0, rows. split; [done|].
  by rewrite writeMapToSheet_valid, insert_getOrCreateSheet.
Qed.

(** X8. [writeMapToSheet] validates before it touches the spreadsheet and
    replaces the whole sheet: on a table that [validateData] rejects it
    raises the same error and leaves the spreadsheet as it was; on any other
    table it returns, the named sheet then holds exactly the rows of the
    table, whatever it held before, and every other sheet is untouched. *)
Theorem writeMapToSheet_replaces (ss : gmap string Sheet) (data : JsData)
    (sheetName : string) :
  (∀ e, validateData data = Err e →
        writeMapToSheet ss data sheetName = (Err e, ss))
  ∧ (validateData data = Ok tt →
     ∃ rows, data = DArray (EArray <$> rows)
       ∧ (writeMapToSheet ss data sheetName).1 = Ok tt
       ∧ (writeMapToSheet ss data sheetName).2 !! sheetName = Some rows
       ∧ ∀ other, other ≠ sheetName →
           (writeMapToSheet ss data sheetName).2 !! other = ss !! other).
Proof.
  split.
  - intros e He. unfold writeMapToSheet. by rewrite He.
  - intros Hvalid.
    destruct (writeMapToSheet_Ok ss data sheetName Hvalid)
      as (row0 & rows & -> & ->).
    exists (row0 :: rows). cbn [fst snd].
    split; [done|]. split; [done|]. split; [by rewrite lookup_insert_eq|].
    intros other Hne. by rewrite lookup_insert_ne.
Qed.

(** X9. Two writes to the same sheet leave what the second alone leaves:
    nothing of the first table remains. *)
Theorem writeMapToSheet_twice (ss : gmap string Sheet) (data1 data2 : JsData)
    (sheetName : string) :
  validateData data1 = Ok tt →
  validateData data2 = Ok tt →
  writeMapToSheet (writeMapToSheet ss data1 sheetName).2 data2 sheetName
  = writeMapToSheet ss data2 sheetName.
Proof.
  intros Hv1 Hv2.
  destruct (writeMapToSheet_Ok ss data1 sheetName Hv1) as (r1 & rows1 & _ & ->).
  cbn [snd].
  destruct (writeMapToSheet_Ok ss data2 sheetName Hv2) as (r2 & rows2 & Hd2 & ->).
  destruct (writeMapToSheet_Ok (<[sheetName := r1 :: rows1]> ss) data2 sheetName Hv2)
    as (r2' & rows2' & Hd2' & ->).
  assert (r2 :: rows2 = r2' :: rows2') as [= <- <-]
    by (apply EArray_fmap_inj; congruence).
  by rewrite insert_insert_eq.
Qed.

(** X10. A table written with [writeMapToSheet] is read back from the
    sheet as it was written, provided its rows are not empty. *)
Theorem writeMapToSheet_read_back (ss : gmap string Sheet) (row0 : list Prim)
    (rows : list (list Prim)) (sheetName : string) :
  row0 ≠ [] →
  validateData (DArray (EArray <$> row0 :: rows)) = Ok tt →
  sheet_getValues
    (sheetOf (writeMapToSheet ss (DArray (EArray <$> row0 :: rows)) sheetName).2
       sheetName)
  = row0 :: rows.
Proof.
  intros Hne Hvalid.
  rewrite writeMapToSheet_valid by done. cbn [snd]. rewrite sheetOf_insert.
  apply (sheet_getValues_rectangular _ (length row0)); [done| |].
  - destruct row0; [done | simpl; lia].
  - intros r [->|Hr]%elem_of_cons; [done|].
    apply validateData_Ok_lengths in Hvalid.
    rewrite forallb_length_true in Hvalid. by apply Hvalid.
Qed.

(** ** [readUsersFromSheet] *)

Lemma sheetOf_getOrCreateSheet (ss : gmap string Sheet) sheetName :
  sheetOf (getOrCreateSheet ss sheetName) sheetName = sheetOf ss sheetName.
Proof. unfold sheetOf at 1. by rewrite getOrCreateSheet_lookup. Qed.

Lemma length_sheet_getValues (sheet : Sheet) :
  length (sheet_getValues sheet) = Nat.max 1 (length sheet).
Proof.
  destruct sheet as [|r sheet]; [done|].
  unfold sheet_getValues. rewrite length_fmap. simpl. lia.
Qed.

Lemma readUsersFromSheet_eq (ss : gmap string Sheet) :
  readUsersFromSheet ss
  = ((λ row, mkUser (cellAt row 0) (Some (mkName (cellAt row 1) (cellAt row 2))))
       <$> drop 1 (sheet_getValues (sheetOf ss "users")),
     getOrCreateSheet ss "users").
Proof.
  unfold readUsersFromSheet. rewrite sheetOf_getOrCreateSheet.
  destruct (Nat.leb (length (sheet_getValues (sheetOf ss "users"))) 1) eqn:Hlen;
    [|done].
  apply Nat.leb_le in Hlen.
  assert (drop 1 (sheet_getValues (sheetOf ss "users")) = []) as ->; [|done].
  by apply drop_ge.
Qed.

(** X11. [readUsersFromSheet] returns one user per row below the first
    row of the sheet "users", each with a [name] object, and none when the
    sheet is missing, empty or has one row only.  It creates the sheet when
    it is missing and changes nothing else; a second read returns the same
    users. *)
Theorem readUsersFromSheet_shape (ss : gmap string Sheet) :
  (readUsersFromSheet ss).2 = getOrCreateSheet ss "users"
  ∧ length (readUsersFromSheet ss).1 = (length (sheetOf ss "users") - 1)%nat
  ∧ Forall (λ u, is_Some (user_name u)) (readUsersFromSheet ss).1
  ∧ (readUsersFromSheet (readUsersFromSheet ss).2).1 = (readUsersFromSheet ss).1
  ∧ (readUsersFromSheet (readUsersFromSheet ss).2).2 = (readUsersFromSheet ss).2.
Proof.
  rewrite !readUsersFromSheet_eq. cbn [fst snd].
  split; [done|]. split.
  - rewrite length_fmap, length_drop, length_sheet_getValues. lia.
  - split.
    + apply Forall_fmap, Forall_forall. intros row _. by eexists.
    + rewrite sheetOf_getOrCreateSheet. split; [done|].
      apply getOrCreateSheet_twice.
Qed.

Lemma length_padTo {A} n (d : A) (l : list A) :
  length (padTo n d l) = Nat.max (length l) n.
Proof. unfold padTo. rewrite length_app, length_replicate. lia. Qed.

Lemma foldr_max_le (lens : list nat) n :
  (∀ k, k ∈ lens → (k ≤ n)%nat) → (foldr Nat.max 0%nat lens ≤ n)%nat.
Proof.
  induction lens as [|k lens IH]; intros Hall; simpl; [lia|].
  assert (k ≤ n)%nat by (apply Hall, elem_of_cons; by left).
  assert (foldr Nat.max 0%nat lens ≤ n)%nat.
  { apply IH. intros k' Hk'. apply Hall, elem_of_cons. by right. }
  lia.
Qed.

(** X12. A sheet "users" whose rows have fewer than three cells is read
    as users without [name.name]: every user read from it fails the test of
    [writeUsersToSheet]. *)
Theorem readUsersFromSheet_narrow (ss : gmap string Sheet) :
  (∀ row, row ∈ sheetOf ss "users" → (length row < 3)%nat) →
  ∀ u, u ∈ (readUsersFromSheet ss).1 →
    (name <$> user_name u) = Some PUndefined ∧ invalidUser u = true.
Proof.
  intros Hnarrow u. rewrite readUsersFromSheet_eq. cbn [fst].
  intros (row & -> & Hrow)%list_elem_of_fmap.
  apply elem_of_sublist with (l2 := sheet_getValues (sheetOf ss "users")) in Hrow;
    [|apply sublist_drop].
  assert (length row < 3)%nat as Hlen.
  { unfold sheet_getValues in Hrow.
    destruct (sheetOf ss "users") as [|r0 sheet] eqn:Hsheet.
    - apply list_elem_of_singleton in Hrow as ->. simpl. lia.
    - apply list_elem_of_fmap in Hrow as (r & -> & Hr).
      rewrite length_padTo. pose proof (Hnarrow r Hr).
      assert (sheet_width (r0 :: sheet) ≤ 2)%nat; [|lia].
      unfold sheet_width.
      assert (foldr Nat.max 0%nat (length <$> r0 :: sheet) ≤ 2)%nat; [|lia].
      apply foldr_max_le. intros k (r' & -> & Hr')%list_elem_of_fmap.
      pose proof (Hnarrow r' Hr'). lia. }
  assert (cellAt row 2 = PUndefined) as Hcell.
  { unfold cellAt. rewrite lookup_ge_None_2; [done | lia]. }
  unfold invalidUser. cbn [user_name userId fmap option_fmap option_map from_option name].
  rewrite Hcell. cbn [truthy negb]. by rewrite !orb_true_r.
Qed.

Lemma readUsersFromSheet_narrow_witness :
  (∀ row, row ∈ sheetOf {[ "users" := narrowSheet ]} "users" → (length row < 3)%nat)
  ∧ invalidUser (mkUser (PStr "U1") (Some (mkName (PStr "a") PUndefined))) = true.
Proof.
  assert (∀ row, row ∈ sheetOf {[ "users" := narrowSheet ]} "users"
                 → (length row < 3)%nat) as Hnarrow.
  { intros row. unfold sheetOf. rewrite lookup_singleton_eq. cbn [default narrowSheet].
    intros [->|[->|?%elem_of_nil]%elem_of_cons]%elem_of_cons; [simpl; lia..|done]. }
  split; [exact Hnarrow|].
  apply (readUsersFromSheet_narrow {[ "users" := narrowSheet ]} Hnarrow).
  rewrite readUsersFromSheet_eq. unfold sheetOf.
  rewrite lookup_singleton_eq. cbn. apply elem_of_cons. by left.
Defined.

(** X13. What is read after [writeUsersToSheet] is the list that was
    written without the users that fail its test, in the same order: a user
    with a falsy [userId], [name.id] or [name.name] is dropped without an
    error, whatever the sheet held before. *)
Theorem write_then_read_filters (ss : gmap string Sheet) (users : list User) :
  (writeUsersToSheet ss users).1 = Ok tt
  ∧ (readUsersFromSheet (writeUsersToSheet ss users).2).1
    = filter (λ u, invalidUser u = false) users
  ∧ (readUsersFromSheet (writeUsersToSheet ss users).2).1 `sublist_of` users
  ∧ (∀ u, u ∈ (readUsersFromSheet (writeUsersToSheet ss users).2).1
          ↔ u ∈ users ∧ invalidUser u = false).
Proof.
  rewrite readUsersFromSheet_writeUsersToSheet.
  split; [by rewrite writeUsersToSheet_eq|]. split; [done|].
  split; [apply sublist_filter|].
  intros u. rewrite list_elem_of_filter. tauto.
Qed.

(** ** More on the merge *)

Lemma Map_set_fresh {V} k (v : V) (m : list (Prim * V)) :
  k ∉ m.*1 → Map_set k v m = m ++ [(k, v)].
Proof.
  induction m as [|[k' v'] m IH]; cbn [Map_set fmap list_fmap fst app]; [done|].
  intros [Hne Hk]%not_elem_of_cons.
  rewrite decide_False by done. by rewrite IH.
Qed.

(** Folding the values of a map with distinct keys, each stored under its
    own [userId], into a map builds that map again. *)
Lemma reduce_values (acc m : list (Prim * User)) :
  NoDup (acc ++ m).*1 →
  Forall (λ p, p.1 = userId p.2) m →
  foldl (λ acc user, Map_set (userId user) user acc) acc m.*2 = acc ++ m.
Proof.
  revert acc. induction m as [|[k u] m IH]; intros acc Hnd Hkeys.
  - by rewrite app_nil_r.
  - apply Forall_cons in Hkeys as [Hk Hkeys]. cbn in Hk. subst k.
    cbn [fmap list_fmap snd foldl].
    rewrite Map_set_fresh.
    + rewrite IH; [by rewrite <- app_assoc | by rewrite <- app_assoc | done].
    + rewrite fmap_app in Hnd. apply NoDup_app in Hnd as (_ & Hdisj & _).
      intros Hin. apply (Hdisj _ Hin). apply elem_of_cons. by left.
Qed.

Lemma Map_set_Forall {V} (P : Prim * V → Prop) k v (m : list (Prim * V)) :
  Forall P m → P (k, v) → Forall P (Map_set k v m).
Proof.
  intros Hm Hkv. induction Hm as [|[k' v'] m Hp Hm IH]; cbn [Map_set].
  - by constructor.
  - destruct (decide (k' = k)) as [->|Hne]; by constructor.
Qed.

Lemma reduce_key_is_userId (acc : list (Prim * User)) (l : list User) :
  Forall (λ p, p.1 = userId p.2) acc →
  Forall (λ p, p.1 = userId p.2)
    (foldl (λ acc user, Map_set (userId user) user acc) acc l).
Proof.
  revert acc. induction l as [|u l IH]; intros acc Hacc; [done|].
  cbn [foldl]. apply IH. by apply Map_set_Forall.
Qed.

Lemma uniqueUsers_rebuild ex new :
  foldl (λ acc user, Map_set (userId user) user acc) [] (mergeUsers ex new)
  = uniqueUsers ex new.
Proof.
  unfold mergeUsers, Map_values.
  rewrite (reduce_values [] (uniqueUsers ex new)); [done| |].
  - apply uniqueUsers_NoDup.
  - apply reduce_key_is_userId. constructor.
Qed.

(** X14. Merging in two steps is merging once with both fetches: a run
    on the result of a run gives what one run with the two fetches, one
    after the other, would have given. *)
Theorem mergeUsers_assoc (stored fetch1 fetch2 : list User) :
  mergeUsers (mergeUsers stored fetch1) fetch2
  = mergeUsers stored (fetch1 ++ fetch2).
Proof.
  unfold mergeUsers at 1. unfold uniqueUsers at 1.
  rewrite foldl_app, uniqueUsers_rebuild.
  unfold mergeUsers, uniqueUsers.
  by rewrite (app_assoc stored), (foldl_app _ (stored ++ fetch1) fetch2).
Qed.

Lemma length_firstOccurrences seen l :
  (length (firstOccurrences seen l) ≤ length l)%nat.
Proof.
  revert seen. induction l as [|k l IH]; intros seen; simpl; [lia|].
  case_decide; simpl.
  - specialize (IH seen). lia.
  - specialize (IH (seen ++ [k])). lia.
Qed.

(** X15. The merge at its borders.  Merging a list with nothing removes
    the earlier users of repeated keys and nothing else: it returns the list
    itself exactly when the keys of the list are distinct.  The merged list
    is never longer than the two lists together. *)
Theorem mergeUsers_nil (ex new : list User) :
  mergeUsers ex [] = mergeUsers [] ex
  ∧ (mergeUsers [] new = new ↔ NoDup (userId <$> new))
  ∧ (length (mergeUsers ex new) ≤ length ex + length new)%nat.
Proof.
  split; [|split].
  - unfold mergeUsers, uniqueUsers. by rewrite app_nil_r.
  - split.
    + intros Heq. rewrite <- Heq. apply mergeUsers_NoDup.
    + intros Hnd. rewrite mergeUsers_distinct by (done || constructor).
      cbn [fmap list_fmap app].
      apply filter_all, Forall_forall. intros u _. apply not_elem_of_nil.
  - unfold mergeUsers, Map_values.
    rewrite length_fmap, <- (length_fmap fst), uniqueUsers_keys.
    etrans; [apply length_firstOccurrences|].
    by rewrite length_fmap, length_app.
Qed.

Lemma firstOccurrences_all_seen seen l :
  (∀ k, k ∈ l → k ∈ seen) → firstOccurrences seen l = [].
Proof.
  induction l as [|k l IH]; intros Hall; simpl; [done|].
  rewrite decide_True by (apply Hall, elem_of_cons; by left).
  apply IH. intros k' ?. apply Hall, elem_of_cons. by right.
Qed.

(** A list with distinct keys that already holds the last user of every
    key of the fetch is not changed by the merge. *)
Lemma mergeUsers_absorb ex new :
  NoDup (userId <$> ex) →
  (∀ k u, lastWithKey k new = Some u → u ∈ ex) →
  mergeUsers ex new = ex.
Proof.
  intros Hnd Hin.
  rewrite mergeUsers_eq, fmap_app, firstOccurrences_app, omap_app.
  rewrite (firstOccurrences_NoDup [] (userId <$> ex)) by done.
  rewrite filter_all by (apply Forall_forall; intros; apply not_elem_of_nil).
  rewrite (firstOccurrences_all_seen _ (userId <$> new)).
  - cbn [omap list_omap]. rewrite app_nil_r.
    etrans; [|apply list_fmap_id].
    apply omap_fmap_Some. intros u Hu. unfold Datatypes.id.
    rewrite lastWithKey_app.
    destruct (lastWithKey (userId u) new) as [u'|] eqn:Hnew.
    + pose proof (Hin _ _ Hnew) as Hu'.
      apply lastWithKey_Some in Hnew as [_ Hk].
      pose proof (lastWithKey_NoDup ex u' Hnd Hu') as H1.
      rewrite Hk, (lastWithKey_NoDup ex u Hnd Hu) in H1. by injection H1 as ->.
    + by apply lastWithKey_NoDup.
  - intros k Hk. rewrite app_nil_l.
    destruct (lastWithKey_is_Some k new Hk) as [u Hu].
    pose proof (Hin _ _ Hu) as Hex.
    apply lastWithKey_Some in Hu as [_ <-].
    apply list_elem_of_fmap. by exists u.
Qed.

(** ** [mergeAndUpdateUsers]: what is stored after a run *)

Lemma mergeAndUpdateUsers_state (ss : gmap string Sheet) newUsers :
  mergeAndUpdateUsers ss newUsers
  = (Ok (mergeUsers (readUsersFromSheet ss).1 newUsers),
     <["users" := userRows (mergeUsers (readUsersFromSheet ss).1 newUsers)]> ss).
Proof.
  rewrite mergeAndUpdateUsers_eq. cbv zeta.
  rewrite (readUsersFromSheet_eq ss). cbn [fst snd].
  by rewrite !insert_getOrCreateSheet.
Qed.

Lemma readUsersFromSheet_userRows (ss : gmap string Sheet) users :
  (readUsersFromSheet (<["users" := userRows users]> ss)).1
  = filter (λ u, invalidUser u = false) users.
Proof.
  rewrite <- (readUsersFromSheet_writeUsersToSheet ss users).
  by rewrite writeUsersToSheet_eq, insert_getOrCreateSheet.
Qed.

(** X16. [mergeAndUpdateUsers] never raises.  It returns the merged list
    and leaves in the sheet "users" the header and one row per merged user
    that passes the test of [writeUsersToSheet]; the other sheets are as
    before.  So what the next run reads is the returned list without the
    users that fail that test. *)
Theorem mergeAndUpdateUsers_persisted (ss : gmap string Sheet) (newUsers : list User) :
  let merged := mergeUsers (readUsersFromSheet ss).1 newUsers in
  (mergeAndUpdateUsers ss newUsers).1 = Ok merged
  ∧ (mergeAndUpdateUsers ss newUsers).2 !! "users"
    = Some (headerRow :: (userRow <$> filter (λ u, invalidUser u = false) merged))
  ∧ (∀ other, other ≠ "users" →
       (mergeAndUpdateUsers ss newUsers).2 !! other = ss !! other)
  ∧ (readUsersFromSheet (mergeAndUpdateUsers ss newUsers).2).1
    = filter (λ u, invalidUser u = false) merged.
Proof.
  intros merged. subst merged. rewrite mergeAndUpdateUsers_state. cbn [fst snd].
  split; [done|].
  split; [by rewrite lookup_insert_eq, userRows_eq|].
  split; [intros other Hne; by rewrite lookup_insert_ne|].
  apply readUsersFromSheet_userRows.
Qed.

Lemma filter_filter_same {A} (P : A → Prop) `{∀ x, Decision (P x)} (l : list A) :
  filter P (filter P l) = filter P l.
Proof.
  apply filter_all, Forall_forall. intros x Hx.
  by apply list_elem_of_filter in Hx as [? _].
Qed.

Lemma userRows_filter users :
  userRows (filter (λ u, invalidUser u = false) users) = userRows users.
Proof. by rewrite !userRows_eq, filter_filter_same. Qed.

(** X17. A second run with the same fetch changes nothing, when every
    fetched user passes the test of [writeUsersToSheet]: it leaves the
    spreadsheet as the first run left it and returns the users stored there.
    When the users stored before the first run pass the test too, both runs
    return the same list. *)
Theorem mergeAndUpdateUsers_rerun (ss : gmap string Sheet) (newUsers : list User) :
  Forall (λ u, invalidUser u = false) newUsers →
  let merged := mergeUsers (readUsersFromSheet ss).1 newUsers in
  mergeAndUpdateUsers (mergeAndUpdateUsers ss newUsers).2 newUsers
  = (Ok (filter (λ u, invalidUser u = false) merged),
     (mergeAndUpdateUsers ss newUsers).2)
  ∧ (Forall (λ u, invalidUser u = false) (readUsersFromSheet ss).1 →
     mergeAndUpdateUsers (mergeAndUpdateUsers ss newUsers).2 newUsers
     = mergeAndUpdateUsers ss newUsers).
Proof.
  intros Hnew merged.
  assert (mergeAndUpdateUsers (mergeAndUpdateUsers ss newUsers).2 newUsers
          = (Ok (filter (λ u, invalidUser u = false) merged),
             (mergeAndUpdateUsers ss newUsers).2)) as Hrerun.
  { rewrite (mergeAndUpdateUsers_state ss). cbn [snd]. fold merged.
    rewrite mergeAndUpdateUsers_state, readUsersFromSheet_userRows.
    rewrite (mergeUsers_absorb (filter _ merged) newUsers).
    - by rewrite userRows_filter, insert_insert_eq.
    - apply (sublist_NoDup _ (userId <$> merged));
        [apply mergeUsers_NoDup | apply fmap_sublist, sublist_filter].
    - intros k u Hu. apply list_elem_of_filter.
      pose proof (lastWithKey_Some _ _ _ Hu) as [Hin Hk].
      split.
      + rewrite Forall_forall in Hnew. by apply Hnew.
      + apply elem_of_mergeUsers. rewrite lastWithKey_app, Hk. by rewrite Hu. }
  split; [exact Hrerun|].
  intros Hstored. rewrite Hrerun, (mergeAndUpdateUsers_state ss). cbn [snd].
  fold merged. f_equal. f_equal.
  apply filter_all, Forall_forall. intros u Hu.
  apply elem_of_mergeUsers, lastWithKey_Some in Hu as [Hin _].
  apply elem_of_app in Hin as [Hin|Hin].
  - rewrite Forall_forall in Hstored. by apply Hstored.
  - rewrite Forall_forall in Hnew. by apply Hnew.
Qed.

(** X18. The users in the sheet after a run are the merged users that
    pass the test of [writeUsersToSheet].  In particular a stored user is
    still there when it passes the test, no fetched user has its key and no
    later stored row has it: a run removes no valid user. *)
Theorem mergeAndUpdateUsers_keeps_stored (ss : gmap string Sheet)
    (newUsers : list User) (u : User) :
  (u ∈ (readUsersFromSheet (mergeAndUpdateUsers ss newUsers).2).1
   ↔ invalidUser u = false
     ∧ lastWithKey (userId u) ((readUsersFromSheet ss).1 ++ newUsers) = Some u)
  ∧ (NoDup (userId <$> (readUsersFromSheet ss).1) →
     u ∈ (readUsersFromSheet ss).1 →
     invalidUser u = false →
     userId u ∉ userId <$> newUsers →
     u ∈ (readUsersFromSheet (mergeAndUpdateUsers ss newUsers).2).1).
Proof.
  assert (u ∈ (readUsersFromSheet (mergeAndUpdateUsers ss newUsers).2).1
          ↔ invalidUser u = false
            ∧ lastWithKey (userId u) ((readUsersFromSheet ss).1 ++ newUsers) = Some u)
    as Hiff.
  { rewrite mergeAndUpdateUsers_state. cbn [snd].
    rewrite readUsersFromSheet_userRows, list_elem_of_filter.
    by rewrite elem_of_mergeUsers. }
  split; [exact Hiff|].
  intros Hnd Hin Hvalid Hnot. apply Hiff. split; [done|].
  rewrite lastWithKey_app.
  apply lastWithKey_None in Hnot as ->. by apply lastWithKey_NoDup.
Qed.

(** ** [main] *)

Lemma getProperty_truthy (properties : gmap string string) prop :
  truthy (getProperty properties prop) = true
  ↔ ∃ value, properties !! prop = Some value ∧ value ≠ "".
Proof.
  unfold getProperty. destruct (properties !! prop) as [value|]; cbn [truthy].
  - rewrite negb_true_iff, String.eqb_neq. split.
    + intros Hne. by exists value.
    + by intros (? & [= <-] & ?).
  - split; [done | by intros (? & ? & _)].
Qed.

Lemma getProperty_falsy (properties : gmap string string) prop :
  truthy (getProperty properties prop) = false
  ↔ properties !! prop = None ∨ properties !! prop = Some "".
Proof.
  unfold getProperty. destruct (properties !! prop) as [value|]; cbn [truthy].
  - rewrite negb_false_iff, String.eqb_eq. split.
    + intros ->. by right.
    + by intros [?|[= ->]].
  - split; [by left | done].
Qed.

(** The loop over the required properties stops at the first one that is
    missing or empty. *)
Lemma firstMissing_Some (properties : gmap string string) props prop :
  firstMissing properties props = Some prop
  ↔ ∃ before after,
      props = before ++ prop :: after
      ∧ truthy (getProperty properties prop) = false
      ∧ Forall (λ p, truthy (getProperty properties p) = true) before.
Proof.
  induction props as [|p props IH]; cbn [firstMissing].
  - split; [done|]. intros (before & after & Heq & _). by destruct before.
  - destruct (truthy (getProperty properties p)) eqn:Hp; cbn [negb].
    + rewrite IH. split.
      * intros (before & after & -> & Hmiss & Hall).
        exists (p :: before), after. split; [done|]. split; [done|].
        by constructor.
      * intros (before & after & Heq & Hmiss & Hall).
        destruct before as [|p' before]; cbn in Heq.
        { injection Heq as -> ->. congruence. }
        injection Heq as -> ->. apply Forall_cons in Hall as [_ Hall].
        by exists before, after.
    + split.
      * intros [= <-]. by exists [], props.
      * intros (before & after & Heq & Hmiss & Hall).
        destruct before as [|p' before]; cbn in Heq.
        { by injection Heq as -> ->. }
        injection Heq as -> ->. apply Forall_cons in Hall as [Hp' _]. congruence.
Qed.

Lemma firstMissing_None (properties : gmap string string) props :
  firstMissing properties props = None
  ↔ Forall (λ p, truthy (getProperty properties p) = true) props.
Proof.
  induction props as [|p props IH]; cbn [firstMissing].
  - split; [by constructor | done].
  - destruct (truthy (getProperty properties p)) eqn:Hp; cbn [negb].
    + rewrite IH. split; [by constructor | by intros [_ ?]%Forall_cons].
    + split; [done|]. intros [? _]%Forall_cons. congruence.
Qed.

Section MainProperties.
Context {World : Type}.
Variable fetchWith : string → World → Request → Result SlackResponse * World.

(** [main] once the three properties are set. *)
Lemma main_configured_eq fuel (properties : gmap string string) w (docs : Docs)
    token channelId sheetId :
  properties !! "SLACK_API_TOKEN" = Some token → token ≠ "" →
  properties !! "SLACK_CHANNEL_ID" = Some channelId → channelId ≠ "" →
  properties !! "SPREAD_SHEET_ID" = Some sheetId → sheetId ≠ "" →
  main fetchWith fuel properties w docs
  = match docs !! sheetId with
    | None =>
        Some (Thrown (Raised (ServiceError "The document cannot be opened")), w, docs)
    | Some ss =>
        match fetchAndParseUsers (fetchWith token) fuel w (PStr channelId) with
        | None => None
        | Some (Err e, w') => Some (Thrown (Raised e), w', docs)
        | Some (Ok parsedUsers, w') =>
            let merged := mergeUsers (readUsersFromSheet ss).1 parsedUsers in
            Some (Returned merged, w',
                  <[sheetId := <["users" := userRows merged]> ss]> docs)
        end
    end.
Proof.
  intros Htoken Htoken' Hchannel Hchannel' Hsheet Hsheet'.
  unfold main.
  assert (firstMissing properties requiredProps = None) as ->.
  { apply firstMissing_None. unfold requiredProps.
    repeat constructor; apply getProperty_truthy; eauto. }
  unfold getProperty. rewrite Htoken, Hchannel, Hsheet.
  unfold newSlackApi, newSpreadSheetApi, openById.
  apply String.eqb_neq in Htoken' as ->. apply String.eqb_neq in Hsheet' as ->.
  destruct (docs !! sheetId) as [ss|]; [|done].
  destruct (fetchAndParseUsers (fetchWith token) fuel w (PStr channelId))
    as [[[parsedUsers|e] w']|]; [|done..].
  by rewrite mergeAndUpdateUsers_state.
Qed.

(** X19. When one of the three script properties is missing or empty,
    [main] raises for the first such property, in the order token, channel,
    spreadsheet; it sends no request and changes no spreadsheet. *)
Theorem main_missing_property (fuel : nat) (properties : gmap string string)
    (w : World) (docs : Docs) (missing : string) :
  missing ∈ requiredProps →
  properties !! missing = None ∨ properties !! missing = Some "" →
  ∃ prop before after,
    requiredProps = before ++ prop :: after
    ∧ (properties !! prop = None ∨ properties !! prop = Some "")
    ∧ (∀ p, p ∈ before → ∃ value, properties !! p = Some value ∧ value ≠ "")
    ∧ main fetchWith fuel properties w docs
      = Some (Thrown (Setup (MissingProperty prop)), w, docs).
Proof.
  intros Hin Hmiss.
  destruct (firstMissing properties requiredProps) as [prop|] eqn:Hfirst.
  - pose proof Hfirst as (before & after & Heq & Hprop & Hall)%firstMissing_Some.
    exists prop, before, after. split; [done|].
    split; [by apply getProperty_falsy|]. split.
    + intros p Hp. rewrite Forall_forall in Hall.
      by apply getProperty_truthy, Hall.
    + unfold main. by rewrite Hfirst.
  - apply firstMissing_None in Hfirst. rewrite Forall_forall in Hfirst.
    apply getProperty_falsy in Hmiss. rewrite (Hfirst _ Hin) in Hmiss. done.
Qed.

(** X20. With the three properties set, [main] opens the spreadsheet
    before it calls Slack: when the spreadsheet cannot be opened it raises
    without a request.  Otherwise it raises what [fetchAndParseUsers]
    raises and leaves every spreadsheet as it was, or returns the merge of
    the stored and the parsed users and changes the sheet "users" of the
    configured spreadsheet and nothing else. *)
Theorem main_configured (fuel : nat) (properties : gmap string string) (w : World)
    (docs : Docs) (token channelId sheetId : string) :
  properties !! "SLACK_API_TOKEN" = Some token → token ≠ "" →
  properties !! "SLACK_CHANNEL_ID" = Some channelId → channelId ≠ "" →
  properties !! "SPREAD_SHEET_ID" = Some sheetId → sheetId ≠ "" →
  (docs !! sheetId = None →
   main fetchWith fuel properties w docs
   = Some (Thrown (Raised (ServiceError "The document cannot be opened")), w, docs))
  ∧ (∀ ss e w',
       docs !! sheetId = Some ss →
       fetchAndParseUsers (fetchWith token) fuel w (PStr channelId)
       = Some (Err e, w') →
       main fetchWith fuel properties w docs = Some (Thrown (Raised e), w', docs))
  ∧ (∀ ss parsedUsers w',
       docs !! sheetId = Some ss →
       fetchAndParseUsers (fetchWith token) fuel w (PStr channelId)
       = Some (Ok parsedUsers, w') →
       let merged := mergeUsers (readUsersFromSheet ss).1 parsedUsers in
       main fetchWith fuel properties w docs
       = Some (Returned merged, w',
               <[sheetId := <["users" := userRows merged]> ss]> docs)).
Proof.
  intros Htoken Htoken' Hchannel Hchannel' Hsheet Hsheet'.
  rewrite (main_configured_eq fuel properties w docs token channelId sheetId)
    by done.
  split; [by intros ->|]. split.
  - intros ss e w' -> ->. done.
  - intros ss parsedUsers w' -> ->. done.
Qed.

(** X21. The only error of the set-up that [main] raises is the missing
    property: the checks of the two constructors cannot fail once the
    properties have been checked.  A missing property is raised before
    anything is sent or changed. *)
Theorem main_setup_errors (fuel : nat) (properties : gmap string string)
    (w : World) (docs : Docs) (e : SetupError) (w' : World) (docs' : Docs) :
  main fetchWith fuel properties w docs = Some (Thrown (Setup e), w', docs') →
  ∃ prop, e = MissingProperty prop ∧ prop ∈ requiredProps
          ∧ (properties !! prop = None ∨ properties !! prop = Some "")
          ∧ w' = w ∧ docs' = docs.
Proof.
  destruct (firstMissing properties requiredProps) as [prop|] eqn:Hfirst.
  - unfold main. rewrite Hfirst. intros [= <- <- <-].
    apply firstMissing_Some in Hfirst as (before & after & Heq & Hprop & _).
    exists prop. split; [done|]. split.
    + rewrite Heq. apply elem_of_app. right. apply elem_of_cons. by left.
    + split; [by apply getProperty_falsy | done].
  - apply firstMissing_None in Hfirst.
    unfold requiredProps in Hfirst.
    apply Forall_cons in Hfirst as [(token & Ht & Ht')%getProperty_truthy Hfirst].
    apply Forall_cons in Hfirst as [(channelId & Hc & Hc')%getProperty_truthy Hfirst].
    apply Forall_cons in Hfirst as [(sheetId & Hs & Hs')%getProperty_truthy _].
    rewrite (main_configured_eq fuel properties w docs token channelId sheetId)
      by done.
    destruct (docs !! sheetId) as [ss|]; [|done].
    by destruct (fetchAndParseUsers (fetchWith token) fuel w (PStr channelId))
      as [[[parsedUsers|e'] w1]|].
Qed.

End MainProperties.

(** ** The further properties on the simulated workspace *)

Lemma flakyFetch_chain :
  PageChainFails flakyFetch (PStr "C0") 0%nat PUndefined
    [simPage ["U1"; "U2"] "c1"; simPage ["U3"; "U4"] "c2"]
    (TransportError "timeout") 3%nat.
Proof.
  eapply PageChainFails_later; [reflexivity | reflexivity |].
  eapply PageChainFails_later; [reflexivity | reflexivity |].
  eapply PageChainFails_here. reflexivity.
Qed.

Lemma listUsersInChannel_page_failure_witness :
  "C0" ≠ ""
  ∧ listUsersInChannel flakyFetch 5 0%nat (PStr "C0")
    = Some (Err (TransportError "timeout"), 3%nat)
  ∧ fetchAndParseUsers flakyFetch 5 0%nat (PStr "C0")
    = Some (Err (TransportError "timeout"), 3%nat).
Proof.
  assert ("C0" ≠ "") as Hid by discriminate.
  split; [exact Hid|].
  apply (listUsersInChannel_page_failure flakyFetch 0%nat "C0" _ _ 3%nat
           Hid flakyFetch_chain 5%nat).
  simpl. lia.
Defined.

Lemma endlessFetch_step (w : unit) (cursor : Prim) :
  True →
  ∃ response w',
    request endlessFetch w "conversations.members" "GET"
      (membersParams (PStr "C0") cursor) = (Ok response, w')
    ∧ truthy (nextCursorOf response) = true
    ∧ True.
Proof. intros _. by exists (simPage ["U1"] "again"), w. Qed.

Lemma listUsersInChannel_endless_witness :
  "C0" ≠ "" ∧ listUsersInChannel endlessFetch 1000 tt (PStr "C0") = None.
Proof.
  assert ("C0" ≠ "") as Hid by discriminate.
  split; [exact Hid|].
  exact (listUsersInChannel_endless endlessFetch (λ _ _, True) tt "C0"
           Hid I endlessFetch_step 1000%nat).
Defined.

Lemma simFetch_echoes_id (w : nat) (userId0 : Prim) (su : SlackUser) (w' : nat) :
  userInfo simFetch w userId0 = (Ok (Some su), w') → slack_id su = userId0.
Proof.
  unfold userInfo. destruct (notNonEmptyString userId0); [done|].
  unfold request, simFetch. cbn [endpoint params lookupParam].
  rewrite decide_False by done. rewrite !decide_True by done.
  unfold simUserInfo. destruct (decide (userId0 = PStr "U2")); cbn; [done|].
  by intros [= <- _].
Qed.

Lemma simFetch_stateless (w1 w2 : nat) (userId0 : Prim) :
  (tryUser simFetch w1 userId0).1 = (tryUser simFetch w2 userId0).1.
Proof.
  unfold tryUser, userInfo. destruct (notNonEmptyString userId0); [done|].
  unfold request, simFetch. cbn [endpoint params lookupParam].
  rewrite decide_False by done. rewrite !decide_True by done.
  unfold simUserInfo. by destruct (decide (userId0 = PStr "U2")).
Qed.

Lemma fetchAndParseLoop_ids_sublist_witness :
  NoDup simUserIds
  ∧ userId <$> (fetchAndParseLoop simFetch 3%nat simUserIds [] []).1.1
    = filter (λ userId0, succeedsAt simFetch 3%nat userId0 = true) simUserIds
  ∧ userId <$> (fetchAndParseLoop simFetch 3%nat simUserIds [] []).1.1
    = [PStr "U1"; PStr "U3"; PStr "U5"; PStr "U6"]
  ∧ (fetchAndParseLoop simFetch 3%nat simUserIds [] []).1.2.*1
    = [PStr "U2"; PStr "U4"]
  ∧ NoDup (userId <$> (fetchAndParseLoop simFetch 3%nat simUserIds [] []).1.1).
Proof.
  assert (NoDup simUserIds) as Hnd by compute_done.
  pose proof (fetchAndParseLoop_ids_sublist simFetch 3%nat simUserIds
                simFetch_echoes_id) as H.
  cbv zeta in H.
  destruct H as (_ & Hkept & Hfailed & _ & _ & Hdistinct & Hfilter).
  split; [exact Hnd|]. split; [exact (Hfilter simFetch_stateless)|].
  split; [exact Hkept|]. split; [exact Hfailed | exact (Hdistinct Hnd)].
Defined.

Lemma getOrCreateSheet_idempotent_witness :
  is_Some (({[ "users" := narrowSheet ]} : gmap string Sheet) !! "users")
  ∧ getOrCreateSheet {[ "users" := narrowSheet ]} "users"
    = {[ "users" := narrowSheet ]}.
Proof.
  assert (is_Some (({[ "users" := narrowSheet ]} : gmap string Sheet) !! "users"))
    as Hsome by (rewrite lookup_singleton_eq; by eexists).
  split; [exact Hsome|].
  by apply (getOrCreateSheet_idempotent {[ "users" := narrowSheet ]} "users").
Defined.

Lemma writeMapToSheet_replaces_witness :
  validateData (DArray [EArray [PStr "a"; PStr "b"]; EArray [PStr "c"]])
  = Err RowLengthMismatch
  ∧ writeMapToSheet {[ "users" := narrowSheet ]}
      (DArray [EArray [PStr "a"; PStr "b"]; EArray [PStr "c"]]) "users"
    = (Err RowLengthMismatch, {[ "users" := narrowSheet ]}).
Proof.
  split; [reflexivity|].
  by apply (writeMapToSheet_replaces {[ "users" := narrowSheet ]}
              (DArray [EArray [PStr "a"; PStr "b"]; EArray [PStr "c"]]) "users").
Defined.

Lemma writeMapToSheet_twice_witness :
  validateData (DArray (EArray <$> narrowSheet)) = Ok tt
  ∧ validateData (DArray [EArray headerRow]) = Ok tt
  ∧ writeMapToSheet
      (writeMapToSheet ∅ (DArray (EArray <$> narrowSheet)) "users").2
      (DArray [EArray headerRow]) "users"
    = writeMapToSheet ∅ (DArray [EArray headerRow]) "users".
Proof.
  assert (validateData (DArray (EArray <$> narrowSheet)) = Ok tt) as H1
    by reflexivity.
  assert (validateData (DArray [EArray headerRow]) = Ok tt) as H2 by reflexivity.
  split; [exact H1|]. split; [exact H2|].
  exact (writeMapToSheet_twice ∅ _ _ "users" H1 H2).
Defined.

Lemma writeMapToSheet_read_back_witness :
  [PStr "userId"; PStr "id"] ≠ []
  ∧ sheet_getValues
      (sheetOf (writeMapToSheet ∅ (DArray (EArray <$> narrowSheet)) "users").2
         "users")
    = narrowSheet.
Proof.
  assert ([PStr "userId"; PStr "id"] ≠ @nil Prim) as Hne by discriminate.
  split; [exact Hne|].
  exact (writeMapToSheet_read_back ∅ [PStr "userId"; PStr "id"]
           [[PStr "U1"; PStr "a"]] "users" Hne eq_refl).
Defined.

Lemma mergeAndUpdateUsers_rerun_witness :
  Forall (λ u, invalidUser u = false) [alicia; bob]
  ∧ mergeAndUpdateUsers (mergeAndUpdateUsers ∅ [alicia; bob]).2 [alicia; bob]
    = mergeAndUpdateUsers ∅ [alicia; bob].
Proof.
  assert (Forall (λ u, invalidUser u = false) [alicia; bob]) as Hnew
    by (repeat constructor).
  split; [exact Hnew|].
  apply (mergeAndUpdateUsers_rerun ∅ [alicia; bob] Hnew).
  rewrite readUsersFromSheet_eq. cbn. constructor.
Defined.

Lemma mergeAndUpdateUsers_keeps_stored_witness :
  let stored := (writeUsersToSheet ∅ [alice]).2 in
  NoDup (userId <$> (readUsersFromSheet stored).1)
  ∧ alice ∈ (readUsersFromSheet stored).1
  ∧ alice ∈ (readUsersFromSheet (mergeAndUpdateUsers stored [bob]).2).1.
Proof.
  intros stored.
  assert ((readUsersFromSheet stored).1 = [alice]) as Hread.
  { unfold stored. by rewrite readUsersFromSheet_writeUsersToSheet. }
  assert (NoDup (userId <$> (readUsersFromSheet stored).1)) as Hnd.
  { rewrite Hread. compute_done. }
  assert (alice ∈ (readUsersFromSheet stored).1) as Hin.
  { rewrite Hread. apply elem_of_cons. by left. }
  split; [exact Hnd|]. split; [exact Hin|].
  apply (mergeAndUpdateUsers_keeps_stored stored [bob] alice); [done..| |].
  - reflexivity.
  - compute_done.
Defined.

Lemma main_missing_property_witness :
  "SLACK_CHANNEL_ID" ∈ requiredProps
  ∧ ∃ prop before after,
      requiredProps = before ++ prop :: after
      ∧ (({[ "SLACK_API_TOKEN" := "xoxb-1" ]} : gmap string string) !! prop = None
         ∨ ({[ "SLACK_API_TOKEN" := "xoxb-1" ]} : gmap string string) !! prop = Some "")
      ∧ (∀ p, p ∈ before →
           ∃ value, ({[ "SLACK_API_TOKEN" := "xoxb-1" ]} : gmap string string) !! p
                    = Some value ∧ value ≠ "")
      ∧ main (λ _, simFetch) 3 {[ "SLACK_API_TOKEN" := "xoxb-1" ]} 0%nat simDocs
        = Some (Thrown (Setup (MissingProperty prop)), 0%nat, simDocs).
Proof.
  assert ("SLACK_CHANNEL_ID" ∈ requiredProps) as Hin by compute_done.
  split; [exact Hin|].
  apply (main_missing_property (λ _, simFetch) 3 _ 0%nat simDocs
           "SLACK_CHANNEL_ID" Hin).
  left. by rewrite lookup_singleton_ne.
Defined.

Lemma simProperties_lookup :
  simProperties !! "SLACK_API_TOKEN" = Some "xoxb-1"
  ∧ simProperties !! "SLACK_CHANNEL_ID" = Some "C0"
  ∧ simProperties !! "SPREAD_SHEET_ID" = Some "sheet1".
Proof. repeat split; vm_compute; reflexivity. Qed.

Lemma main_configured_witness :
  ∃ docs',
    main (λ _, simFetch) 3 simProperties 0%nat simDocs
    = Some (Returned [taro "U1"; taro "U3"; taro "U5"; taro "U6"], 9%nat, docs')
    ∧ docs' !! "sheet1"
      = Some {[ "users" := userRows [taro "U1"; taro "U3"; taro "U5"; taro "U6"] ]}.
Proof.
  destruct simProperties_lookup as (Htoken & Hchannel & Hsheet).
  pose proof (main_configured (λ _, simFetch) 3 simProperties 0%nat simDocs
                "xoxb-1" "C0" "sheet1") as Hmain.
  destruct Hmain as (_ & _ & Hrun); [done..|].
  specialize (Hrun ∅ [taro "U1"; taro "U3"; taro "U5"; taro "U6"] 9%nat).
  eexists. split.
  - apply Hrun; [|reflexivity]. unfold simDocs. by rewrite lookup_singleton_eq.
  - rewrite lookup_insert_eq. f_equal.
Defined.

Lemma main_setup_errors_witness :
  main (λ _, simFetch) 3 ∅ 0%nat simDocs
  = Some (Thrown (Setup (MissingProperty "SLACK_API_TOKEN")), 0%nat, simDocs)
  ∧ ∃ prop, MissingProperty "SLACK_API_TOKEN" = MissingProperty prop
            ∧ prop ∈ requiredProps.
Proof.
  assert (main (λ _, simFetch) 3 ∅ 0%nat simDocs
          = Some (Thrown (Setup (MissingProperty "SLACK_API_TOKEN")), 0%nat, simDocs))
    as Hmain by reflexivity.
  split; [exact Hmain|].
  destruct (main_setup_errors (λ _, simFetch) 3 ∅ 0%nat simDocs _ _ _ Hmain)
    as (prop & Hprop & Hin & _).
  by exists prop.
Defined.

(** ** The URL of a request *)

Lemma has_char_app c s1 s2 :
  has_char c (s1 +:+ s2) = has_char c s1 || has_char c s2.
Proof.
  induction s1 as [|a s1 IH]; [done|].
  change (String a s1 +:+ s2) with (String a (s1 +:+ s2)).
  cbn [has_char]. by rewrite IH, orb_assoc.
Qed.

Lemma unescaped_hexDigit b3 b2 b1 b0 : unescaped (hexDigit b3 b2 b1 b0) = true.
Proof. by destruct b3, b2, b1, b0. Qed.

Lemma hexBits_hexDigit b3 b2 b1 b0 :
  hexBits (hexDigit b3 b2 b1 b0) = Some (b3, b2, b1, b0).
Proof. by destruct b3, b2, b1, b0. Qed.

Lemma unescaped_not_percent c : unescaped c = true → Ascii.eqb c "%" = false.
Proof.
  intros Hc. apply Ascii.eqb_neq. intros ->. by vm_compute in Hc.
Qed.

Lemma has_char_escapeByte c c0 :
  unescaped c = false → c ≠ "%"%char → has_char c (escapeByte c0) = false.
Proof.
  intros Hc Hpercent. destruct c0 as [b0 b1 b2 b3 b4 b5 b6 b7].
  cbn [escapeByte has_char].
  assert (∀ a, unescaped a = true → Ascii.eqb a c = false) as Hne.
  { intros a Ha. apply Ascii.eqb_neq. intros ->. congruence. }
  rewrite (Hne (hexDigit b7 b6 b5 b4)), (Hne (hexDigit b3 b2 b1 b0))
    by apply unescaped_hexDigit.
  assert (Ascii.eqb "%" c = false) as -> by (apply Ascii.eqb_neq; congruence).
  done.
Qed.

(** An escaped string is made of unescaped characters and [%]. *)
Lemma encodeURIComponent_chars c s :
  unescaped c = false → c ≠ "%"%char →
  has_char c (encodeURIComponent s) = false.
Proof.
  intros Hc Hpercent. induction s as [|a s IH]; [done|].
  cbn [encodeURIComponent]. destruct (unescaped a) eqn:Ha.
  - cbn [has_char]. rewrite IH, orb_false_r.
    apply Ascii.eqb_neq. intros ->. congruence.
  - by rewrite has_char_app, IH, has_char_escapeByte.
Qed.

Lemma percentDecode_encodeURIComponent s :
  percentDecode (encodeURIComponent s) = Some s.
Proof.
  induction s as [|a s IH]; [done|].
  cbn [encodeURIComponent]. destruct (unescaped a) eqn:Ha.
  - cbn [percentDecode]. by rewrite (unescaped_not_percent a Ha), IH.
  - destruct a as [b0 b1 b2 b3 b4 b5 b6 b7]. cbn [escapeByte].
    change (String "%" (String ?h (String ?l "")) +:+ ?r)
      with (String "%" (String h (String l r))).
    cbn [percentDecode]. rewrite Ascii.eqb_refl, !hexBits_hexDigit, IH. done.
Qed.

(** X22. [encodeURIComponent] loses nothing and lets no separator
    through: the escaped string decodes to the string, so two strings with
    the same escaped form are equal, and the escaped string holds only
    unescaped characters and [%]; none of [& = ? # /] and no space. *)
Theorem encodeURIComponent_roundtrip (s : string) :
  percentDecode (encodeURIComponent s) = Some s
  ∧ (∀ s', encodeURIComponent s = encodeURIComponent s' → s = s')
  ∧ (∀ c, has_char c (encodeURIComponent s) = true →
          unescaped c = true ∨ c = "%"%char)
  ∧ Forall (λ c, has_char c (encodeURIComponent s) = false)
      ["&"; "="; "?"; "#"; "/"; " "]%char.
Proof.
  split; [apply percentDecode_encodeURIComponent|]. split; [|split].
  - intros s' Heq.
    pose proof (percentDecode_encodeURIComponent s) as H1.
    rewrite Heq, percentDecode_encodeURIComponent in H1. by injection H1.
  - intros c Hc. destruct (unescaped c) eqn:Hu; [by left|]. right.
    destruct (decide (c = "%"%char)) as [|Hne]; [done|].
    by rewrite encodeURIComponent_chars in Hc.
  - repeat constructor; by apply encodeURIComponent_chars.
Qed.

Lemma entry_split key value :
  percentDecode
    <$> split "=" (encodeURIComponent key
                   +:+ String "=" (encodeURIComponent (ToString value)))
  = [Some key; Some (ToString value)].
Proof.
  rewrite split_token_sep by by apply encodeURIComponent_chars.
  rewrite split_token by by apply encodeURIComponent_chars.
  cbn [fmap list_fmap]. by rewrite !percentDecode_encodeURIComponent.
Qed.

Lemma entry_no_amp key value :
  has_char "&" (encodeURIComponent key
                +:+ String "=" (encodeURIComponent (ToString value))) = false.
Proof.
  rewrite has_char_app. cbn [has_char].
  by rewrite !encodeURIComponent_chars.
Qed.

(** X23. The query of a GET request can be read back: cut at [&] and [=]
    and decoded, the query gives the keys and the values of [params], as
    strings, in order, whatever characters they hold.  The URL is the base
    URL, the endpoint and, when there are parameters, [?] and the query. *)
Theorem requestUrl_query_read_back (endpoint : string)
    (params : list (string * Prim)) :
  params ≠ [] →
  requestUrl endpoint "GET" params
  = (baseUrl +:+ String "/" endpoint) +:+ String "?" (queryParams params)
  ∧ parseQuery (queryParams params)
    = (λ '(key, value), [Some key; Some (ToString value)]) <$> params.
Proof.
  intros Hne. split.
  - unfold requestUrl. by destruct params.
  - unfold parseQuery, queryParams.
    rewrite split_join.
    + rewrite <- list_fmap_compose. apply list_fmap_ext.
      intros i [key value] _. cbn. apply entry_split.
    + by destruct params.
    + apply Forall_fmap, Forall_forall. intros [key value] _. cbn.
      apply entry_no_amp.
Qed.

Lemma requestUrl_query_read_back_witness :
  membersParams (PStr "C 0") (PStr "dXNl=") ≠ []
  ∧ requestUrl "conversations.members" "GET"
      (membersParams (PStr "C 0") (PStr "dXNl="))
    = "https://slack.com/api/conversations.members?channel=C%200&limit=200&cursor=dXNl%3D"
  ∧ parseQuery "channel=C%200&limit=200&cursor=dXNl%3D"
    = [[Some "channel"; Some "C 0"]; [Some "limit"; Some "200"];
       [Some "cursor"; Some "dXNl="]].
Proof.
  assert (membersParams (PStr "C 0") (PStr "dXNl=") ≠ []) as Hne by discriminate.
  split; [exact Hne|].
  exact (requestUrl_query_read_back "conversations.members" _ Hne).
Defined.
